(** * Video translation job service: data model, handlers and their properties

    A shallow embedding of the server of the video-dubber repository and
    of the client code that calls it:
    - [schema.ts]: the zod schemas (language and status enums, job record,
      input shapes of the procedures);
    - [db/schema.ts]: the [translation_jobs] table;
    - the six handlers and the tRPC router that validates inputs and
      dispatches to them;
    - the upload form and the page of the client.

    Conventions of the model.
    - Time is a millisecond count in [Z]. The database clock ([now()],
      which stamps a row when it is inserted) and the handler clock
      ([new Date()], [Date.now()]) are read separately: every operation
      receives the reading it makes as an argument.
    - A text is the sequence of the bytes of its UTF-8 encoding.
    - JavaScript numbers are modelled by integers.
    - The table is the list of its rows in insertion order, the next value
      of the [serial] sequence behind [id], and the order in which a scan
      of the table meets the rows.
    - A statement that PostgreSQL refuses, and a file operation that
      fails, make the handler throw; the router answers a thrown error
      with INTERNAL_SERVER_ERROR.
    - The file system and the other services of the JavaScript runtime
      ([Buffer.from], [path.dirname]) are not part of the repository: the
      handlers are defined, and the theorems proved, for every behaviour
      of them ([Runtime]). *)

From Stdlib Require Import ZArith List String Ascii Bool Lia.
From Stdlib Require Import Permutation Sorted.
From Stdlib Require Import DecimalString DecimalZ.
Import ListNotations.

Open Scope string_scope.
Open Scope Z_scope.

(** ** schema.ts: enums *)

(** [supportedLanguagesSchema = z.enum(['en', 'es', ...])] *)
Inductive SupportedLanguage : Type :=
  en | es | fr | de | it | pt | ru | ja | ko | zh | ar | hi.

(** The options of the enum, in declaration order. *)
Definition supportedLanguages : list SupportedLanguage :=
  [en; es; fr; de; it; pt; ru; ja; ko; zh; ar; hi].

Definition language_code (l : SupportedLanguage) : string :=
  match l with
  | en => "en" | es => "es" | fr => "fr" | de => "de"
  | it => "it" | pt => "pt" | ru => "ru" | ja => "ja"
  | ko => "ko" | zh => "zh" | ar => "ar" | hi => "hi"
  end.

(** [translationStatusSchema = z.enum(['pending', 'processing', ...])] *)
Inductive TranslationStatus : Type :=
  pending | processing | completed | failed.

Definition translationStatuses : list TranslationStatus :=
  [pending; processing; completed; failed].

Definition status_name (s : TranslationStatus) : string :=
  match s with
  | pending => "pending" | processing => "processing"
  | completed => "completed" | failed => "failed"
  end.

(** ** Values crossing the procedure boundary *)

(** The JSON-like values a caller may send. An object is the list of its
    properties; reading a property that is not there gives [undefined]. *)
#[local] Unset Elimination Schemes.
Inductive JsValue : Type :=
| JsUndefined
| JsNull
| JsBoolean (b : bool)
| JsNumber (n : Z)
| JsString (s : string)
| JsObject (props : list (string * JsValue)).
#[local] Set Elimination Schemes.

Fixpoint get_prop (k : string) (props : list (string * JsValue)) : JsValue :=
  match props with
  | [] => JsUndefined
  | (k', v) :: rest => if String.eqb k k' then v else get_prop k rest
  end.

Inductive Result (E A : Type) : Type :=
| Ok (a : A)
| Err (e : E).
Arguments Ok {E A} a.
Arguments Err {E A} e.

(** ** zod: the parsers the schemas are built from *)

Inductive ZodIssue : Type :=
| invalid_type
| invalid_enum_value
| too_small (message : string).

Definition Parser (A : Type) : Type := JsValue -> Result ZodIssue A.

(** [z.string()] *)
Definition z_string : Parser string :=
  fun v => match v with JsString s => Ok s | _ => Err invalid_type end.

(** [z.string().min(1, message)] *)
Definition z_string_min1 (message : string) : Parser string :=
  fun v =>
    match v with
    | JsString s => if (String.length s <? 1)%nat then Err (too_small message) else Ok s
    | _ => Err invalid_type
    end.

(** [z.number()] *)
Definition z_number : Parser Z :=
  fun v => match v with JsNumber n => Ok n | _ => Err invalid_type end.

(** [z.enum(options)]: the input must be a string equal to one option. *)
Definition z_enum {A : Type} (name : A -> string) (options : list A) : Parser A :=
  fun v =>
    match v with
    | JsString s =>
        match find (fun o => String.eqb s (name o)) options with
        | Some o => Ok o
        | None => Err invalid_enum_value
        end
    | _ => Err invalid_type
    end.

Definition supportedLanguagesSchema : Parser SupportedLanguage :=
  z_enum language_code supportedLanguages.

Definition translationStatusSchema : Parser TranslationStatus :=
  z_enum status_name translationStatuses.

(** [schema.optional()]: [undefined] (or a missing key) is accepted and
    means that the field is not supplied. *)
Definition z_optional {A : Type} (p : Parser A) : Parser (option A) :=
  fun v =>
    match v with
    | JsUndefined => Ok None
    | _ => match p v with Ok a => Ok (Some a) | Err e => Err e end
    end.

(** [schema.nullable()]: [null] is accepted and is kept as the value. *)
Definition z_nullable {A : Type} (p : Parser A) : Parser (option A) :=
  fun v =>
    match v with
    | JsNull => Ok None
    | _ => match p v with Ok a => Ok (Some a) | Err e => Err e end
    end.

(** Parsing an object collects the issues of all its fields. *)
Definition Parsed (A : Type) : Type := Result (list (string * ZodIssue)) A.

Definition field {A : Type} (key : string) (p : Parser A)
    (props : list (string * JsValue)) : Parsed A :=
  match p (get_prop key props) with
  | Ok a => Ok a
  | Err e => Err [(key, e)]
  end.

Definition ap {A B : Type} (f : Parsed (A -> B)) (x : Parsed A) : Parsed B :=
  match f, x with
  | Ok g, Ok a => Ok (g a)
  | Ok _, Err e => Err e
  | Err e, Ok _ => Err e
  | Err e1, Err e2 => Err (e1 ++ e2)%list
  end.

Notation "f <*> x" := (ap f x) (at level 61, left associativity).

(** ** schema.ts: records *)

(** [translationJobSchema] / a row of [translationJobsTable]. *)
Record TranslationJob : Type := {
  id : Z;
  original_filename : string;
  original_file_path : string;
  detected_language : option SupportedLanguage;
  target_language : SupportedLanguage;
  status : TranslationStatus;
  translated_file_path : option string;
  transcript : option string;
  translated_transcript : option string;
  error_message : option string;
  created_at : Z;
  updated_at : Z
}.

(** [createTranslationJobInputSchema] *)
Record CreateTranslationJobInput : Type := {
  create_original_filename : string;
  create_original_file_path : string;
  create_target_language : SupportedLanguage
}.

Definition createTranslationJobInputSchema (v : JsValue)
    : Parsed CreateTranslationJobInput :=
  match v with
  | JsObject o =>
      Ok Build_CreateTranslationJobInput
        <*> field "original_filename" (z_string_min1 "Filename is required") o
        <*> field "original_file_path" (z_string_min1 "File path is required") o
        <*> field "target_language" supportedLanguagesSchema o
  | _ => Err [("", invalid_type)]
  end.

(** [updateTranslationJobInputSchema]. An optional field is [None] when
    the caller did not supply it; for the nullable ones [Some None] is an
    explicit [null]. *)
Record UpdateTranslationJobInput : Type := {
  update_id : Z;
  update_detected_language : option SupportedLanguage;
  update_status : option TranslationStatus;
  update_translated_file_path : option (option string);
  update_transcript : option (option string);
  update_translated_transcript : option (option string);
  update_error_message : option (option string)
}.

Definition updateTranslationJobInputSchema (v : JsValue)
    : Parsed UpdateTranslationJobInput :=
  match v with
  | JsObject o =>
      Ok Build_UpdateTranslationJobInput
        <*> field "id" z_number o
        <*> field "detected_language" (z_optional supportedLanguagesSchema) o
        <*> field "status" (z_optional translationStatusSchema) o
        <*> field "translated_file_path" (z_optional (z_nullable z_string)) o
        <*> field "transcript" (z_optional (z_nullable z_string)) o
        <*> field "translated_transcript" (z_optional (z_nullable z_string)) o
        <*> field "error_message" (z_optional (z_nullable z_string)) o
  | _ => Err [("", invalid_type)]
  end.

(** [getTranslationJobInputSchema] *)
Record GetTranslationJobInput : Type := { get_id : Z }.

Definition getTranslationJobInputSchema (v : JsValue)
    : Parsed GetTranslationJobInput :=
  match v with
  | JsObject o => Ok Build_GetTranslationJobInput <*> field "id" z_number o
  | _ => Err [("", invalid_type)]
  end.

(** [uploadVideoInputSchema] *)
Record UploadVideoInput : Type := {
  upload_filename : string;
  upload_file_data : string;
  upload_target_language : SupportedLanguage
}.

Definition uploadVideoInputSchema (v : JsValue) : Parsed UploadVideoInput :=
  match v with
  | JsObject o =>
      Ok Build_UploadVideoInput
        <*> field "filename" (z_string_min1 "Filename is required") o
        <*> field "file_data" z_string o
        <*> field "target_language" supportedLanguagesSchema o
  | _ => Err [("", invalid_type)]
  end.


(** ** [Array.prototype.sort] with a comparator *)

(** The sort is stable: elements that compare equal keep their order. A
    comparator result at most zero leaves its first argument in front. *)
Section ArraySort.
Context {A : Type}.
Variable compareFn : A -> A -> Z.

Fixpoint sort_insert (x : A) (l : list A) : list A :=
  match l with
  | [] => [x]
  | y :: l' => if compareFn x y <=? 0 then x :: l else y :: sort_insert x l'
  end.

Definition Array_sort (l : list A) : list A := fold_right sort_insert [] l.

End ArraySort.


(** ** PostgreSQL: the values the columns take *)

(** Whether the character [c] occurs in [s]. *)
Fixpoint contains_char (c : ascii) (s : string) : bool :=
  match s with
  | EmptyString => false
  | String a s' => Ascii.eqb a c || contains_char c s'
  end.

(** The character U+0000. *)
Definition NUL : ascii := Ascii.zero.

(** Why the server refuses a statement. *)
Inductive PgError : Type :=
| invalid_byte_sequence
| numeric_value_out_of_range
| sequence_generator_limit_exceeded.

(** A [text] value cannot contain the character U+0000. *)
Definition pg_text_ok (s : string) : bool := negb (contains_char NUL s).

(** [serial] and [integer] are 32-bit: a number outside this range is no
    value of the [id] column. *)
Definition int4_ok (n : Z) : bool := (-2147483648 <=? n) && (n <=? 2147483647).

(** The text, if any, that a nullable text parameter carries. *)
Definition text_of (t : option (option string)) : list string :=
  match t with
  | Some (Some s) => [s]
  | _ => []
  end.

(** ** db/schema.ts: the table and the statements the handlers issue *)

(** [rows] are in insertion order. [heap] lists the ids in the order in
    which a scan of the table meets the rows: a new row is written at the
    end, and so is the new version of a row that an update rewrites. (No
    space is reclaimed in between: nothing in the repository deletes a
    row or vacuums the table.) *)
Record Db : Type := {
  rows : list TranslationJob;
  next_id : Z;
  heap : list Z
}.

Definition empty_db : Db := {| rows := []; next_id := 1; heap := [] |}.

(** The values of an [insert]. A column with a default may be left out
    ([None]); a nullable column may also be given an explicit null
    ([Some None]). *)
Record NewTranslationJob : Type := {
  new_original_filename : string;
  new_original_file_path : string;
  new_detected_language : option (option SupportedLanguage);
  new_target_language : SupportedLanguage;
  new_status : option TranslationStatus;
  new_translated_file_path : option (option string);
  new_transcript : option (option string);
  new_translated_transcript : option (option string);
  new_error_message : option (option string)
}.

(** A nullable column that is left out is stored as NULL. *)
Definition or_null {A : Type} (v : option (option A)) : option A :=
  match v with
  | Some given => given
  | None => None
  end.

(** The texts among the parameters of an insert. *)
Definition insert_texts (v : NewTranslationJob) : list string :=
  (new_original_filename v :: new_original_file_path v
     :: text_of (new_translated_file_path v) ++ text_of (new_transcript v)
     ++ text_of (new_translated_transcript v) ++ text_of (new_error_message v))%list.

(** The row an insert writes: [id] comes from the sequence, [status]
    defaults to ['pending'], and both timestamps default to the same
    [now()]. *)
Definition inserted_row (v : NewTranslationJob) (k now : Z) : TranslationJob :=
  {| id := k;
     original_filename := new_original_filename v;
     original_file_path := new_original_file_path v;
     detected_language := or_null (new_detected_language v);
     target_language := new_target_language v;
     status := match new_status v with Some s => s | None => pending end;
     translated_file_path := or_null (new_translated_file_path v);
     transcript := or_null (new_transcript v);
     translated_transcript := or_null (new_translated_transcript v);
     error_message := or_null (new_error_message v);
     created_at := now;
     updated_at := now |}.

(** [db.insert(translationJobsTable).values(v).returning()]. The
    statement is refused, and nothing changes, when a text parameter
    contains U+0000 or when the sequence is exhausted. *)
Definition db_insert (v : NewTranslationJob) (now : Z) (d : Db)
    : Result PgError (list TranslationJob) * Db :=
  if negb (forallb pg_text_ok (insert_texts v)) then (Err invalid_byte_sequence, d)
  else if negb (int4_ok (next_id d)) then (Err sequence_generator_limit_exceeded, d)
  else
    (Ok [inserted_row v (next_id d) now],
     {| rows := rows d ++ [inserted_row v (next_id d) now];
        next_id := next_id d + 1;
        heap := heap d ++ [next_id d] |}).

(** [db.select().from(translationJobsTable).where(eq(id, k)).limit(1)]:
    refused when [k] is no value of the column's type. *)
Definition db_select_by_id (k : Z) (d : Db) : Result PgError (list TranslationJob) :=
  if int4_ok k then Ok (firstn 1 (filter (fun r => id r =? k) (rows d)))
  else Err numeric_value_out_of_range.

(** The object given to [.set(...)]: a key that is not supplied leaves
    its column alone; a supplied key, [null] included, overwrites it. *)
Record UpdateSet : Type := {
  set_detected_language : option SupportedLanguage;
  set_status : option TranslationStatus;
  set_translated_file_path : option (option string);
  set_transcript : option (option string);
  set_translated_transcript : option (option string);
  set_error_message : option (option string);
  set_updated_at : Z
}.

Definition supplied {A : Type} (u : option A) (old : A) : A :=
  match u with
  | Some v => v
  | None => old
  end.

Definition apply_set (s : UpdateSet) (r : TranslationJob) : TranslationJob :=
  {| id := id r;
     original_filename := original_filename r;
     original_file_path := original_file_path r;
     detected_language :=
       supplied (option_map Some (set_detected_language s)) (detected_language r);
     target_language := target_language r;
     status := supplied (set_status s) (status r);
     translated_file_path := supplied (set_translated_file_path s) (translated_file_path r);
     transcript := supplied (set_transcript s) (transcript r);
     translated_transcript :=
       supplied (set_translated_transcript s) (translated_transcript r);
     error_message := supplied (set_error_message s) (error_message r);
     created_at := created_at r;
     updated_at := set_updated_at s |}.

Definition set_texts (s : UpdateSet) : list string :=
  (text_of (set_translated_file_path s) ++ text_of (set_transcript s)
     ++ text_of (set_translated_transcript s) ++ text_of (set_error_message s))%list.

(** The ids equal to [k] moved behind all others. *)
Definition move_to_end (k : Z) (ids : list Z) : list Z :=
  (filter (fun i => negb (i =? k)) ids ++ filter (fun i => i =? k) ids)%list.

(** [db.update(translationJobsTable).set(s).where(eq(id, k)).returning()]:
    every matching row is rewritten and its new version is written at the
    end of the table; the rewritten rows are returned. The statement is
    refused, and nothing changes, when a supplied text contains U+0000 or
    when [k] is no value of the column's type (the parameters of [set]
    come before that of [where]). *)
Definition db_update_by_id (k : Z) (s : UpdateSet) (d : Db)
    : Result PgError (list TranslationJob) * Db :=
  if negb (forallb pg_text_ok (set_texts s)) then (Err invalid_byte_sequence, d)
  else if negb (int4_ok k) then (Err numeric_value_out_of_range, d)
  else
    (Ok (map (apply_set s) (filter (fun r => id r =? k) (rows d))),
     {| rows := map (fun r => if id r =? k then apply_set s r else r) (rows d);
        next_id := next_id d;
        heap := move_to_end k (heap d) |}).

(** The rows in the order in which a scan of the table meets them. *)
Definition scan (d : Db) : list TranslationJob :=
  flat_map (fun i => filter (fun r => id r =? i) (rows d)) (heap d).

Definition newest_first (a b : TranslationJob) : Prop :=
  created_at b <= created_at a.

(** Sorting in descending [created_at]. The query names no second key:
    rows with equal [created_at] are left in the order in which they
    come in. *)
Definition order_desc_keep_ties (l : list TranslationJob) : list TranslationJob :=
  Array_sort (fun a b => created_at b - created_at a) l.

(** [db.select().from(translationJobsTable).orderBy(desc(created_at))]:
    the rows of a scan, sorted. *)
Definition db_select_order_by_created_at_desc (d : Db)
    : Result PgError (list TranslationJob) :=
  Ok (order_desc_keep_ties (scan d)).

(** [result[0]], or the absent value when the array is empty. *)
Definition first_row (result : list TranslationJob) : option TranslationJob :=
  match result with
  | [] => None
  | r :: _ => Some r
  end.

(** ** What a handler throws *)

(** The code of a failed file operation (["ENAMETOOLONG"], ...). *)
Definition FsError : Type := string.

Inductive Thrown : Type :=
| PgThrown (e : PgError)
| FsThrown (e : FsError).

(** [try { ... } catch (error) { console.error(...); throw error; }]
    around a statement: its result goes through [f], its error is thrown
    on. *)
Definition rethrow {A B : Type} (f : A -> B) (r : Result PgError A) : Result Thrown B :=
  match r with
  | Ok a => Ok (f a)
  | Err e => Err (PgThrown e)
  end.

(** ** handlers/create_translation_job.ts *)

(** The object given to [.values(...)]: the five nullable columns are
    written as explicit nulls. *)
Definition create_values (input : CreateTranslationJobInput) : NewTranslationJob :=
  {| new_original_filename := create_original_filename input;
     new_original_file_path := create_original_file_path input;
     new_detected_language := Some None;
     new_target_language := create_target_language input;
     new_status := Some pending;
     new_translated_file_path := Some None;
     new_transcript := Some None;
     new_translated_transcript := Some None;
     new_error_message := Some None |}.

Definition createTranslationJob (input : CreateTranslationJobInput) (now : Z) (d : Db)
    : Result Thrown (option TranslationJob) * Db :=
  let (result, d') := db_insert (create_values input) now d in
  (rethrow first_row result, d').

(** ** handlers/get_translation_job.ts *)

Definition getTranslationJob (input : GetTranslationJobInput) (d : Db)
    : Result Thrown (option TranslationJob) :=
  rethrow
    (fun result =>
       match result with
       | [] => None
       | job :: _ =>
           Some {| id := id job;
                   original_filename := original_filename job;
                   original_file_path := original_file_path job;
                   detected_language := detected_language job;
                   target_language := target_language job;
                   status := status job;
                   translated_file_path := translated_file_path job;
                   transcript := transcript job;
                   translated_transcript := translated_transcript job;
                   error_message := error_message job;
                   created_at := created_at job;
                   updated_at := updated_at job |}
       end)
    (db_select_by_id (get_id input) d).

(** ** handlers/update_translation_job.ts *)

(** [{ ...updateData, updated_at: new Date() }] *)
Definition updateData (input : UpdateTranslationJobInput) (now : Z) : UpdateSet :=
  {| set_detected_language := update_detected_language input;
     set_status := update_status input;
     set_translated_file_path := update_translated_file_path input;
     set_transcript := update_transcript input;
     set_translated_transcript := update_translated_transcript input;
     set_error_message := update_error_message input;
     set_updated_at := now |}.

(** What the update makes of a row it matches. *)
Definition set_updateData (input : UpdateTranslationJobInput) (now : Z)
    (r : TranslationJob) : TranslationJob :=
  apply_set (updateData input now) r.

Definition updateTranslationJob (input : UpdateTranslationJobInput) (now : Z) (d : Db)
    : Result Thrown (option TranslationJob) * Db :=
  let (result, d') := db_update_by_id (update_id input) (updateData input now) d in
  (rethrow
     (fun updated => if (0 <? List.length updated)%nat then first_row updated else None)
     result,
   d').

(** ** handlers/get_translation_jobs.ts *)

Definition getTranslationJobs (d : Db) : Result Thrown (list TranslationJob) :=
  rethrow (fun jobs => jobs) (db_select_order_by_created_at_desc d).

(** ** handlers/get_supported_languages.ts *)

Definition languageNames : list (SupportedLanguage * string) :=
  [ (en, "English"); (es, "Spanish"); (fr, "French"); (de, "German");
    (it, "Italian"); (pt, "Portuguese"); (ru, "Russian"); (ja, "Japanese");
    (ko, "Korean"); (zh, "Chinese"); (ar, "Arabic"); (hi, "Hindi") ].

Record LanguageOption : Type := {
  code : SupportedLanguage;
  name : string
}.

(** [String.prototype.localeCompare] on words of unaccented Latin letters,
    as the English collation orders them: letter by letter without regard
    to case; words that differ in case only put the lower-case letter
    first. The result is negative, zero or positive. *)
Definition is_upper (c : ascii) : bool :=
  ((65 <=? nat_of_ascii c) && (nat_of_ascii c <=? 90))%nat.

Definition fold_case (c : ascii) : nat :=
  if is_upper c then (nat_of_ascii c + 32)%nat else nat_of_ascii c.

Fixpoint compare_letters (s t : string) : comparison :=
  match s, t with
  | EmptyString, EmptyString => Eq
  | EmptyString, String _ _ => Lt
  | String _ _, EmptyString => Gt
  | String a s', String b t' =>
      match Nat.compare (fold_case a) (fold_case b) with
      | Eq => compare_letters s' t'
      | c => c
      end
  end.

Fixpoint compare_case (s t : string) : comparison :=
  match s, t with
  | String a s', String b t' =>
      if Ascii.eqb a b then compare_case s' t'
      else if is_upper b then Lt else Gt
  | _, _ => Eq
  end.

Definition localeCompare (s t : string) : Z :=
  match compare_letters s t with
  | Lt => -1
  | Gt => 1
  | Eq => match compare_case s t with Lt => -1 | Gt => 1 | Eq => 0 end
  end.

(** [Object.entries(languageNames).map(...)] lists the entries in the
    order the keys were written; the fresh array is then sorted. *)
Definition getSupportedLanguages : list LanguageOption :=
  Array_sort (fun a b => localeCompare (name a) (name b))
    (map (fun e => {| code := fst e; name := snd e |}) languageNames).



(** ** The JavaScript runtime *)

(** What the upload handler asks of the runtime: [Buffer.from(text,
    'base64')], [path.dirname], [mkdir(path, { recursive: true })] and
    [writeFile(path, buffer)]. A file operation returns the error it
    fails with, if any, and the state of the file system it leaves, which
    may differ from the one it found even when it fails. *)
Class Runtime : Type := {
  FsState : Type;
  Buffer : Type;
  fs_initial : FsState;
  Buffer_from_base64 : string -> Buffer;
  dirname : string -> string;
  mkdir_recursive : string -> FsState -> option FsError * FsState;
  writeFile : string -> Buffer -> FsState -> option FsError * FsState
}.

Section Server.
Context {runtime : Runtime}.

Record World : Type := {
  db : Db;
  storage : FsState
}.

Definition initial_world : World := {| db := empty_db; storage := fs_initial |}.

(** ** handlers/upload_video.ts *)

(** [`${timestamp}`] for an integer timestamp: its decimal digits. *)
Definition Number_toString (n : Z) : string :=
  NilZero.string_of_int (Z.to_int n).

(** [Math.random().toString(36).substring(2, 8)]; [random36] is the
    base-36 text of the number drawn. *)
Definition randomId (random36 : string) : string :=
  substring 2 6 random36.

(** [`/uploads/videos/${timestamp}_${randomId}_${input.filename}`] *)
Definition filePath (timestamp : Z) (random36 : string) (filename : string) : string :=
  ("/uploads/videos/" ++ Number_toString timestamp ++ "_" ++ randomId random36
     ++ "_" ++ filename)%string.

Definition fullPath (path : string) : string := ("./storage" ++ path)%string.

(** The object given to [.values(...)]: the five nullable columns are
    left out. *)
Definition upload_values (input : UploadVideoInput) (path : string) : NewTranslationJob :=
  {| new_original_filename := upload_filename input;
     new_original_file_path := path;
     new_detected_language := None;
     new_target_language := upload_target_language input;
     new_status := Some pending;
     new_translated_file_path := None;
     new_transcript := None;
     new_translated_transcript := None;
     new_error_message := None |}.

(** [timestamp] is the reading of [Date.now()], [random36] the text of
    [Math.random()], [now] the database clock when the row is inserted.
    The directory is made, then the file is written, then the row is
    inserted; the first step that fails ends the call, and what the
    earlier steps did stays. *)
Definition uploadVideo (input : UploadVideoInput)
    (timestamp : Z) (random36 : string) (now : Z) (w : World)
    : Result Thrown (option TranslationJob) * World :=
  let path := filePath timestamp random36 (upload_filename input) in
  match mkdir_recursive (dirname (fullPath path)) (storage w) with
  | (Some e, st) => (Err (FsThrown e), {| db := db w; storage := st |})
  | (None, st) =>
      let fileBuffer := Buffer_from_base64 (upload_file_data input) in
      match writeFile (fullPath path) fileBuffer st with
      | (Some e, st') => (Err (FsThrown e), {| db := db w; storage := st' |})
      | (None, st') =>
          let (result, d') := db_insert (upload_values input path) now (db w) in
          (rethrow first_row result, {| db := d'; storage := st' |})
      end
  end.

(** ** index.ts: the router *)

(** A procedure parses its input with its schema; when parsing fails the
    caller gets the issues and the handler is not run. An error thrown
    by the handler reaches the caller as INTERNAL_SERVER_ERROR. *)
Inductive TRPCError : Type :=
| BAD_REQUEST (issues : list (string * ZodIssue))
| INTERNAL_SERVER_ERROR (cause : Thrown).

Definition Response (A : Type) : Type := Result TRPCError A.

Definition respond {A : Type} (r : Result Thrown A) : Response A :=
  match r with
  | Ok a => Ok a
  | Err e => Err (INTERNAL_SERVER_ERROR e)
  end.

Definition proc_uploadVideo (raw : JsValue)
    (timestamp : Z) (random36 : string) (now : Z) (w : World)
    : Response (option TranslationJob) * World :=
  match uploadVideoInputSchema raw with
  | Err issues => (Err (BAD_REQUEST issues), w)
  | Ok input =>
      let (job, w') := uploadVideo input timestamp random36 now w in (respond job, w')
  end.

Definition proc_createTranslationJob (raw : JsValue) (now : Z) (w : World)
    : Response (option TranslationJob) * World :=
  match createTranslationJobInputSchema raw with
  | Err issues => (Err (BAD_REQUEST issues), w)
  | Ok input =>
      let (job, d') := createTranslationJob input now (db w) in
      (respond job, {| db := d'; storage := storage w |})
  end.

Definition proc_getTranslationJob (raw : JsValue) (w : World)
    : Response (option TranslationJob) * World :=
  match getTranslationJobInputSchema raw with
  | Err issues => (Err (BAD_REQUEST issues), w)
  | Ok input => (respond (getTranslationJob input (db w)), w)
  end.

Definition proc_getTranslationJobs (w : World)
    : Response (list TranslationJob) * World :=
  (respond (getTranslationJobs (db w)), w).

Definition proc_updateTranslationJob (raw : JsValue) (now : Z) (w : World)
    : Response (option TranslationJob) * World :=
  match updateTranslationJobInputSchema raw with
  | Err issues => (Err (BAD_REQUEST issues), w)
  | Ok input =>
      let (job, d') := updateTranslationJob input now (db w) in
      (respond job, {| db := d'; storage := storage w |})
  end.

Definition proc_getSupportedLanguages (w : World)
    : Response (list LanguageOption) * World :=
  (Ok getSupportedLanguages, w).

(** ** Histories of calls *)

(** The calls that can write, each with the clock readings it makes. *)
Inductive Call : Type :=
| call_uploadVideo (timestamp : Z) (random36 : string) (now : Z) (raw : JsValue)
| call_createTranslationJob (now : Z) (raw : JsValue)
| call_updateTranslationJob (now : Z) (raw : JsValue).

(** The reading that ends up in the table. *)
Definition call_time (c : Call) : Z :=
  match c with
  | call_uploadVideo _ _ now _ => now
  | call_createTranslationJob now _ => now
  | call_updateTranslationJob now _ => now
  end.

Definition exec (c : Call) (w : World) : World :=
  match c with
  | call_uploadVideo timestamp random36 now raw =>
      snd (proc_uploadVideo raw timestamp random36 now w)
  | call_createTranslationJob now raw => snd (proc_createTranslationJob raw now w)
  | call_updateTranslationJob now raw => snd (proc_updateTranslationJob raw now w)
  end.

Definition run (calls : list Call) (w : World) : World :=
  fold_left (fun w c => exec c w) calls w.

(** A batch of uploads, run one after the other; each upload comes with
    the readings of [Date.now()], [Math.random()] and the database clock
    that it makes. *)
Record UploadCall : Type := {
  uc_input : UploadVideoInput;
  uc_timestamp : Z;
  uc_random36 : string;
  uc_now : Z
}.

Fixpoint upload_each (calls : list UploadCall) (w : World)
    : list (Result Thrown (option TranslationJob)) * World :=
  match calls with
  | [] => ([], w)
  | c :: rest =>
      let (job, w') :=
        uploadVideo (uc_input c) (uc_timestamp c) (uc_random36 c) (uc_now c) w in
      let (jobs, w'') := upload_each rest w' in
      (job :: jobs, w'')
  end.

End Server.

(** A runtime for running the definitions on examples: a file is kept
    under the text of its path, a buffer is the text it was decoded from,
    and no file operation fails. It is one behaviour among those the
    theorems below hold for. *)
#[export] Instance example_runtime : Runtime := {|
  FsState := list (string * string);
  Buffer := string;
  fs_initial := [];
  Buffer_from_base64 := fun text => text;
  dirname := fun path => path;
  mkdir_recursive := fun _ st => (None, st);
  writeFile := fun path buffer st =>
    (None, (path, buffer) :: filter (fun e => negb (String.eqb path (fst e))) st)
|}.


(** ** Vocabulary of the statements *)

(** A table as PostgreSQL keeps it: ids are unique, below the sequence
    and values of the column's type, and a scan meets every row once. *)
Definition db_wf (d : Db) : Prop :=
  NoDup (map id (rows d))
  /\ Forall (fun r => id r < next_id d) (rows d)
  /\ Forall (fun r => int4_ok (id r) = true) (rows d)
  /\ Permutation (heap d) (map id (rows d)).

(** What a listing owes to the table: all its rows, newest first. *)
Definition listing (d : Db) (jobs : list TranslationJob) : Prop :=
  Permutation (rows d) jobs /\ StronglySorted newest_first jobs.

(** Sorting a list read backwards: ties come out in reverse. *)
Definition order_desc_flip_ties (l : list TranslationJob) : list TranslationJob :=
  order_desc_keep_ties (rev l).

(** How one supplied-or-omitted field of an update shows in the result. *)
Definition field_after {A : Type} (u : option A) (old new : A) : Prop :=
  match u with
  | Some v => new = v
  | None => new = old
  end.

(** The texts an update supplies. *)
Definition update_texts (input : UpdateTranslationJobInput) : list string :=
  (text_of (update_translated_file_path input) ++ text_of (update_transcript input)
     ++ text_of (update_translated_transcript input)
     ++ text_of (update_error_message input))%list.

(** PostgreSQL can store every text the update supplies. *)
Definition update_storable (input : UpdateTranslationJobInput) : bool :=
  forallb pg_text_ok (update_texts input).

(** A job with another [updated_at] and nothing else changed. *)
Definition with_updated_at (j : TranslationJob) (t : Z) : TranslationJob :=
  {| id := id j;
     original_filename := original_filename j;
     original_file_path := original_file_path j;
     detected_language := detected_language j;
     target_language := target_language j;
     status := status j;
     translated_file_path := translated_file_path j;
     transcript := transcript j;
     translated_transcript := translated_transcript j;
     error_message := error_message j;
     created_at := created_at j;
     updated_at := t |}.

(** Every value the update supplies is the one the job has already. *)
Definition supplies_old_values (input : UpdateTranslationJobInput) (j : TranslationJob)
    : Prop :=
  (forall l, update_detected_language input = Some l -> detected_language j = Some l)
  /\ (forall s, update_status input = Some s -> status j = s)
  /\ (forall t, update_translated_file_path input = Some t -> translated_file_path j = t)
  /\ (forall t, update_transcript input = Some t -> transcript j = t)
  /\ (forall t, update_translated_transcript input = Some t ->
                translated_transcript j = t)
  /\ (forall t, update_error_message input = Some t -> error_message j = t).

(** [{ id: k }]: an update that supplies no field. *)
Definition empty_update (k : Z) : UpdateTranslationJobInput :=
  {| update_id := k;
     update_detected_language := None;
     update_status := None;
     update_translated_file_path := None;
     update_transcript := None;
     update_translated_transcript := None;
     update_error_message := None |}.

(** The job created at millisecond 1000 in an empty table. *)
Definition one_job : TranslationJob :=
  {| id := 1;
     original_filename := "clip.mp4";
     original_file_path := "/uploads/clip.mp4";
     detected_language := None;
     target_language := es;
     status := pending;
     translated_file_path := None;
     transcript := None;
     translated_transcript := None;
     error_message := None;
     created_at := 1000;
     updated_at := 1000 |}.

(** [{ id: 1, status: 'processing', transcript: null, error_message: 'x' }] *)
Definition sample_update : UpdateTranslationJobInput :=
  {| update_id := 1;
     update_detected_language := None;
     update_status := Some processing;
     update_translated_file_path := None;
     update_transcript := Some None;
     update_translated_transcript := None;
     update_error_message := Some (Some "x") |}.

(** [{ id: 1, transcript: '\u0000' }] *)
Definition nul_update : UpdateTranslationJobInput :=
  {| update_id := 1;
     update_detected_language := None;
     update_status := None;
     update_translated_file_path := None;
     update_transcript := Some (Some (String NUL EmptyString));
     update_translated_transcript := None;
     update_error_message := None |}.

(** An update of job 2. *)
Definition second_update : UpdateTranslationJobInput :=
  {| update_id := 2;
     update_detected_language := Some en;
     update_status := Some completed;
     update_translated_file_path := None;
     update_transcript := None;
     update_translated_transcript := None;
     update_error_message := None |}.

(** A table holding one job, created at millisecond 1000. *)
Definition one_job_db : Db :=
  snd (createTranslationJob
         {| create_original_filename := "clip.mp4";
            create_original_file_path := "/uploads/clip.mp4";
            create_target_language := es |} 1000 empty_db).

(** Every row was last written no later than [t] and no earlier than it
    was created. *)
Definition timestamps_ordered (t : Z) (d : Db) : Prop :=
  Forall (fun r => created_at r <= updated_at r /\ updated_at r <= t) (rows d).

(** Rows in the order of their creation times, none later than [t]. *)
Definition chronological (t : Z) (d : Db) : Prop :=
  StronglySorted (fun a b => created_at a <= created_at b) (rows d)
  /\ Forall (fun r => created_at r <= t) (rows d).

(** Job [k] is in the table and its language has been detected. *)
Definition language_known (k : Z) (d : Db) : Prop :=
  exists j l, getTranslationJob {| get_id := k |} d = Ok (Some j)
              /\ detected_language j = Some l.

(** The fields of a job that no procedure can change. *)
Definition same_identity (j j' : TranslationJob) : Prop :=
  id j' = id j
  /\ original_filename j' = original_filename j
  /\ original_file_path j' = original_file_path j
  /\ target_language j' = target_language j
  /\ created_at j' = created_at j.

(** The ids [1, 2, ..., n]. *)
Definition ids_up_to (n : nat) : list Z := map Z.of_nat (seq 1 n).

(** The ids of the table are 1, 2, ... and the sequence is one ahead. *)
Definition ids_sequential (d : Db) : Prop :=
  map id (rows d) = ids_up_to (List.length (rows d))
  /\ next_id d = Z.of_nat (List.length (rows d)) + 1.

(** How a schema with [.optional()] reads a property: left out, or the
    encoding of a value. *)
Definition optional_as {A : Type} (encode : A -> JsValue) (v : JsValue) (u : option A)
    : Prop :=
  match u with
  | None => v = JsUndefined
  | Some a => v = encode a
  end.

Definition js_language (l : SupportedLanguage) : JsValue := JsString (language_code l).

Definition js_status (s : TranslationStatus) : JsValue := JsString (status_name s).

Definition js_nullable_string (t : option string) : JsValue :=
  match t with
  | None => JsNull
  | Some s => JsString s
  end.

(** The four text fields of an update. *)
Definition text_keys : list string :=
  [ "translated_file_path"; "transcript"; "translated_transcript"; "error_message" ].

(** A creation input that is accepted, one with an empty file name, and
    one whose file name starts with U+0000. *)
Definition valid_create_props : list (string * JsValue) :=
  [ ("original_filename", JsString "clip.mp4");
    ("original_file_path", JsString "/uploads/clip.mp4");
    ("target_language", JsString "es") ].

Definition invalid_create_props : list (string * JsValue) :=
  [ ("original_filename", JsString "");
    ("original_file_path", JsString "/uploads/clip.mp4");
    ("target_language", JsString "es") ].

Definition nul_create_props : list (string * JsValue) :=
  [ ("original_filename", JsString (String NUL "b.mp4"));
    ("original_file_path", JsString "/uploads/b.mp4");
    ("target_language", JsString "es") ].

(** An update object with an unknown status. *)
Definition unknown_status_props : list (string * JsValue) :=
  [ ("id", JsNumber 1); ("status", JsString "done") ].

(** An upload object that is accepted (its payload is empty). *)
Definition valid_upload_props : list (string * JsValue) :=
  [ ("filename", JsString "clip.mp4");
    ("file_data", JsString "");
    ("target_language", JsString "ja") ].

(** A creation followed by the detection of the language of job 1. *)
Definition detecting_calls : list Call :=
  [ call_createTranslationJob 1000 (JsObject valid_create_props);
    call_updateTranslationJob 1500
      (JsObject [ ("id", JsNumber 1); ("detected_language", JsString "en") ]) ].

Definition detected_world : World := run detecting_calls initial_world.

(** Job 1 as it stands in [detected_world]. *)
Definition detected_job : TranslationJob :=
  {| id := 1;
     original_filename := "clip.mp4";
     original_file_path := "/uploads/clip.mp4";
     detected_language := Some en;
     target_language := es;
     status := pending;
     translated_file_path := None;
     transcript := None;
     translated_transcript := None;
     error_message := None;
     created_at := 1000;
     updated_at := 1500 |}.

(** Later calls: a status change, transcripts set and then nulled, an
    attempt to null the detected language, and another creation. *)
Definition later_calls : list Call :=
  [ call_updateTranslationJob 2000
      (JsObject [ ("id", JsNumber 1); ("status", JsString "processing") ]);
    call_updateTranslationJob 2500
      (JsObject [ ("id", JsNumber 1); ("transcript", JsString "Hi");
                  ("error_message", JsString "late") ]);
    call_updateTranslationJob 2500
      (JsObject [ ("id", JsNumber 1); ("transcript", JsNull);
                  ("error_message", JsNull) ]);
    call_updateTranslationJob 3000
      (JsObject [ ("id", JsNumber 1); ("detected_language", JsNull) ]);
    call_createTranslationJob 3000
      (JsObject [ ("original_filename", JsString "b.mp4");
                  ("original_file_path", JsString "/uploads/b.mp4");
                  ("target_language", JsString "fr") ]) ].

(** Two creations stamped with the same reading of the database clock. *)
Definition two_creations : list Call :=
  [ call_createTranslationJob 1000
      (JsObject [ ("original_filename", JsString "a.mp4");
                  ("original_file_path", JsString "/uploads/a.mp4");
                  ("target_language", JsString "es") ]);
    call_createTranslationJob 1000
      (JsObject [ ("original_filename", JsString "b.mp4");
                  ("original_file_path", JsString "/uploads/b.mp4");
                  ("target_language", JsString "fr") ]) ].

(** A table holding two jobs created in the same millisecond. *)
Definition two_job_db : Db := db (run two_creations initial_world).

(** The same table after job 1 was set to processing. *)
Definition two_job_db_after_update : Db :=
  db (run (two_creations
             ++ [ call_updateTranslationJob 2000
                    (JsObject [ ("id", JsNumber 1);
                                ("status", JsString "processing") ]) ])
        initial_world).


(** An upload of ["same-name.mp4"] made in millisecond 1700000000000. *)
Definition same_name_upload (random36 payload : string) : UploadCall :=
  {| uc_input := {| upload_filename := "same-name.mp4";
                    upload_file_data := payload;
                    upload_target_language := en |};
     uc_timestamp := 1700000000000;
     uc_random36 := random36;
     uc_now := 1700000000002 |}.

(** Two uploads whose random numbers agree in their first six digits. *)
Definition colliding_uploads : list UploadCall :=
  [ same_name_upload "0.k3j9x2abcde" "Y29udGVudCAw";
    same_name_upload "0.k3j9x2zzzzz" "Y29udGVudCAx" ].

(** A short session: an upload, a refused update, a refused creation, a
    creation whose file name PostgreSQL refuses, a creation, an update. *)
Definition session_calls : list Call :=
  [ call_uploadVideo 1700000000000 "0.k3j9x2abcde" 1700000000002
      (JsObject valid_upload_props);
    call_updateTranslationJob 1700000000500 (JsObject unknown_status_props);
    call_createTranslationJob 1700000000600 (JsObject invalid_create_props);
    call_createTranslationJob 1700000000650 (JsObject nul_create_props);
    call_createTranslationJob 1700000000700 (JsObject valid_create_props);
    call_updateTranslationJob 1700000000800
      (JsObject [ ("id", JsNumber 2); ("status", JsString "failed");
                  ("error_message", JsString "unsupported codec") ]) ].

Section ServerVocabulary.
Context {runtime : Runtime}.

(** What the router answers to a call. *)
Definition response (c : Call) (w : World) : Response (option TranslationJob) :=
  match c with
  | call_uploadVideo timestamp random36 now raw =>
      fst (proc_uploadVideo raw timestamp random36 now w)
  | call_createTranslationJob now raw => fst (proc_createTranslationJob raw now w)
  | call_updateTranslationJob now raw => fst (proc_updateTranslationJob raw now w)
  end.

(** Whether a call is an upload or a creation that is answered with a
    job. *)
Definition creates_job (c : Call) (w : World) : bool :=
  match c, response c w with
  | call_updateTranslationJob _ _, _ => false
  | _, Ok (Some _) => true
  | _, _ => false
  end.

(** How many calls of a history are such. *)
Fixpoint jobs_created (calls : list Call) (w : World) : nat :=
  match calls with
  | [] => 0%nat
  | c :: rest => ((if creates_job c w then 1 else 0) + jobs_created rest (exec c w))%nat
  end.



End ServerVocabulary.

(** * The client *)

(** ** components/JobsList.tsx *)

(** The table inside [getLanguageName]. *)
Definition clientLanguageNames : list (string * string) :=
  [ ("en", "English"); ("es", "Spanish"); ("fr", "French"); ("de", "German");
    ("it", "Italian"); ("pt", "Portuguese"); ("ru", "Russian"); ("ja", "Japanese");
    ("ko", "Korean"); ("zh", "Chinese"); ("ar", "Arabic"); ("hi", "Hindi") ].

(** The names every object literal inherits; indexing the table with one
    of them gives the inherited member, not [undefined]. *)
Definition Object_prototype_keys : list string :=
  [ "constructor"; "hasOwnProperty"; "isPrototypeOf"; "propertyIsEnumerable";
    "toLocaleString"; "toString"; "valueOf"; "__proto__";
    "__defineGetter__"; "__defineSetter__"; "__lookupGetter__"; "__lookupSetter__" ].

(** What [getLanguageName] hands to the page: a text, or a member
    inherited from [Object.prototype]. *)
Inductive Displayed : Type :=
| display_text (s : string)
| display_inherited (key : string).

(** [languageNames[code] || code]: the empty text is falsy. *)
Definition getLanguageName (code : string) : Displayed :=
  match find (fun e => String.eqb code (fst e)) clientLanguageNames with
  | Some e => if String.eqb (snd e) "" then display_text code else display_text (snd e)
  | None =>
      if existsb (String.eqb code) Object_prototype_keys
      then display_inherited code
      else display_text code
  end.

(** ** components/VideoUpload.tsx *)

Record File : Type := {
  file_name : string;
  file_type : string;
  file_size : Z
}.

(** The component's state: [targetLanguage] is a code or the empty text. *)
Record FormState : Type := {
  selectedFile : option File;
  targetLanguage : option SupportedLanguage;
  dragOver : bool
}.

Definition initial_form : FormState :=
  {| selectedFile := None; targetLanguage := None; dragOver := false |}.

(** What a handler does besides changing the state. *)
Inductive Effect : Type :=
| alert (message : string)
| onUpload (file : File) (language : SupportedLanguage).

Definition handleFileSelect (file : File) (st : FormState) : FormState * list Effect :=
  if negb (prefix "video/" (file_type file)) then
    (st, [alert "Please select a video file"])
  else if 100 * 1024 * 1024 <? file_size file then
    (st, [alert "File size must be less than 100MB"])
  else
    ({| selectedFile := Some file;
        targetLanguage := targetLanguage st;
        dragOver := dragOver st |}, []).

Definition handleDragOver (st : FormState) : FormState * list Effect :=
  ({| selectedFile := selectedFile st; targetLanguage := targetLanguage st;
      dragOver := true |}, []).

Definition handleDragLeave (st : FormState) : FormState * list Effect :=
  ({| selectedFile := selectedFile st; targetLanguage := targetLanguage st;
      dragOver := false |}, []).

Definition handleDrop (files : list File) (st : FormState) : FormState * list Effect :=
  let st' := {| selectedFile := selectedFile st; targetLanguage := targetLanguage st;
                dragOver := false |} in
  match files with
  | file :: _ => handleFileSelect file st'
  | [] => (st', [])
  end.

Definition handleFileInputChange (files : list File) (st : FormState)
    : FormState * list Effect :=
  match files with
  | file :: _ => handleFileSelect file st
  | [] => (st, [])
  end.

(** The "Choose Different File" button. *)
Definition chooseDifferentFile (st : FormState) : FormState * list Effect :=
  ({| selectedFile := None; targetLanguage := targetLanguage st;
      dragOver := dragOver st |}, []).

(** [onValueChange] of the language select. *)
Definition onValueChange (value : SupportedLanguage) (st : FormState)
    : FormState * list Effect :=
  ({| selectedFile := selectedFile st; targetLanguage := Some value;
      dragOver := dragOver st |}, []).

(** [onUpload] returns normally (see [handleVideoUpload]), so the form is
    reset after every upload that is started. *)
Definition handleSubmit (st : FormState) : FormState * list Effect :=
  match selectedFile st with
  | None => (st, [alert "Please select a video file"])
  | Some file =>
      match targetLanguage st with
      | None => (st, [alert "Please select a target language"])
      | Some language =>
          ({| selectedFile := None; targetLanguage := None; dragOver := dragOver st |},
           [onUpload file language])
      end
  end.

Inductive FormEvent : Type :=
| ev_dragOver
| ev_dragLeave
| ev_drop (files : list File)
| ev_fileInputChange (files : list File)
| ev_chooseDifferentFile
| ev_valueChange (value : SupportedLanguage)
| ev_submit.

Definition handle (e : FormEvent) (st : FormState) : FormState * list Effect :=
  match e with
  | ev_dragOver => handleDragOver st
  | ev_dragLeave => handleDragLeave st
  | ev_drop files => handleDrop files st
  | ev_fileInputChange files => handleFileInputChange files st
  | ev_chooseDifferentFile => chooseDifferentFile st
  | ev_valueChange value => onValueChange value st
  | ev_submit => handleSubmit st
  end.

(** The state after a sequence of events and the effects in order. *)
Fixpoint handle_all (events : list FormEvent) (st : FormState)
    : FormState * list Effect :=
  match events with
  | [] => (st, [])
  | e :: rest =>
      let (st', effects) := handle e st in
      let (st'', effects') := handle_all rest st' in
      (st'', (effects ++ effects')%list)
  end.

(** A file the form lets through. *)
Definition acceptable (file : File) : Prop :=
  prefix "video/" (file_type file) = true /\ file_size file <= 104857600.

(** The file held by the form, if any, is one it lets through. *)
Definition form_ok (st : FormState) : Prop :=
  forall file, selectedFile st = Some file -> acceptable file.

(** ** App.tsx *)

Record AppState : Type := {
  jobs : list (option TranslationJob);
  isUploading : bool;
  uploadError : option string
}.

(** The page before anything was loaded. *)
Definition initial_app : AppState :=
  {| jobs := []; isUploading := false; uploadError := None |}.

(** [text.split(',')] *)
Fixpoint split_on (sep : ascii) (s : string) : list string :=
  match s with
  | EmptyString => [EmptyString]
  | String c s' =>
      if Ascii.eqb c sep then EmptyString :: split_on sep s'
      else match split_on sep s' with
           | piece :: pieces => String c piece :: pieces
           | [] => [String c EmptyString]
           end
  end.

(** [reader.result.split(',')[1]] *)
Definition dataUrl_payload (result : string) : JsValue :=
  match split_on "," result with
  | _ :: payload :: _ => JsString payload
  | _ => JsUndefined
  end.

Section Client.
Context {runtime : Runtime}.

(** The object sent to the upload procedure. *)
Definition upload_request (file : File) (targetLanguage : SupportedLanguage)
    (result : string) : JsValue :=
  JsObject [ ("filename", JsString (file_name file));
             ("file_data", dataUrl_payload result);
             ("target_language", JsString (language_code targetLanguage)) ].

(** [handleVideoUpload]. [readerResult] is the data URL that the file
    reader delivers, or nothing when reading fails; the three readings
    are those of the server's upload handler. A failure of either step is
    caught: it sets the error message and leaves the list alone. *)
Definition handleVideoUpload (file : File) (targetLanguage : SupportedLanguage)
    (readerResult : option string)
    (timestamp : Z) (random36 : string) (now : Z)
    (app : AppState) (w : World) : AppState * World :=
  match readerResult with
  | None =>
      ({| jobs := jobs app; isUploading := false;
          uploadError := Some "Failed to upload video. Please try again." |}, w)
  | Some result =>
      match proc_uploadVideo (upload_request file targetLanguage result)
              timestamp random36 now w with
      | (Ok job, w') =>
          ({| jobs := job :: jobs app; isUploading := false;
              uploadError := None |}, w')
      | (Err _, w') =>
          ({| jobs := jobs app; isUploading := false;
              uploadError := Some "Failed to upload video. Please try again." |}, w')
      end
  end.

End Client.

(** Two files and a session at the form. *)
Definition video_file : File :=
  {| file_name := "clip.mp4"; file_type := "video/mp4"; file_size := 104857600 |}.

Definition text_file : File :=
  {| file_name := "notes.txt"; file_type := "text/plain"; file_size := 12 |}.

Definition form_session : list FormEvent :=
  [ ev_fileInputChange [text_file]; ev_submit; ev_dragOver; ev_drop [video_file];
    ev_submit; ev_valueChange ja; ev_submit; ev_submit ].

(** * Properties *)

(** Small checks of the definitions. *)
Example languages_first_last :
  map code getSupportedLanguages = [ar; zh; en; fr; de; hi; it; ja; ko; pt; ru; es].
Proof. reflexivity. Qed.

Example filePath_example :
  filePath 1700000000000 "0.k3j9x2abc" "clip.mp4"
  = "/uploads/videos/1700000000000_k3j9x2_clip.mp4".
Proof. reflexivity. Qed.

Example localeCompare_examples :
  localeCompare "Arabic" "Chinese" = -1 /\ localeCompare "Spanish" "Russian" = 1
  /\ localeCompare "Hindi" "Hindi" = 0 /\ localeCompare "a" "A" = -1.
Proof. repeat split. Qed.

Example storable_examples :
  pg_text_ok "clip.mp4" = true /\ pg_text_ok (String NUL "b.mp4") = false
  /\ int4_ok 2147483647 = true /\ int4_ok 2147483648 = false.
Proof. repeat split. Qed.

(** ** Facts about the table statements *)

Section TableFacts.
Variable k : Z.
Variable f : TranslationJob -> TranslationJob.
Hypothesis f_keeps_id : forall r, id (f r) = id r.

Let touch (r : TranslationJob) : TranslationJob := if id r =? k then f r else r.

Lemma touch_id : forall r, id (touch r) = id r.
Proof. intros r. unfold touch. destruct (id r =? k); auto. Qed.

Lemma filter_absent :
  forall l, (forall r, In r l -> id r <> k) -> filter (fun r => id r =? k) l = [].
Proof.
  induction l as [|r l IH]; intros Hno; simpl; [reflexivity|].
  destruct (Z.eqb_spec (id r) k) as [E|_].
  - exfalso. apply (Hno r); [left; reflexivity | exact E].
  - apply IH. intros r' Hin. apply Hno. right. exact Hin.
Qed.

Lemma touch_absent :
  forall l, (forall r, In r l -> id r <> k) -> map touch l = l.
Proof.
  induction l as [|r l IH]; intros Hno; simpl; [reflexivity|].
  unfold touch at 1.
  destruct (Z.eqb_spec (id r) k) as [E|_].
  - exfalso. apply (Hno r); [left; reflexivity | exact E].
  - f_equal. apply IH. intros r' Hin. apply Hno. right. exact Hin.
Qed.

Lemma filter_touched_same :
  forall l, filter (fun r => id r =? k) (map touch l)
            = map f (filter (fun r => id r =? k) l).
Proof.
  induction l as [|r l IH]; simpl; [reflexivity|].
  rewrite touch_id. unfold touch at 1.
  destruct (id r =? k); simpl; rewrite IH; reflexivity.
Qed.

Lemma filter_touched_other :
  forall k' l, k' <> k ->
    filter (fun r => id r =? k') (map touch l) = filter (fun r => id r =? k') l.
Proof.
  intros k' l Hne. induction l as [|r l IH]; simpl; [reflexivity|].
  rewrite touch_id. unfold touch at 1.
  destruct (Z.eqb_spec (id r) k') as [E|_]; [|exact IH].
  destruct (Z.eqb_spec (id r) k) as [E'|_]; [congruence|].
  rewrite IH. reflexivity.
Qed.

Lemma map_id_touch : forall l, map id (map touch l) = map id l.
Proof.
  intros l. rewrite map_map. apply map_ext. exact touch_id.
Qed.
End TableFacts.

Lemma filter_unique_id :
  forall l j, NoDup (map id l) -> In j l ->
    filter (fun r => id r =? id j) l = [j].
Proof.
  induction l as [|r l IH]; intros j Hnd Hin; [contradiction|].
  simpl in Hnd. inversion Hnd as [|? ? Hnotin Hnd']; subst.
  simpl. destruct Hin as [->|Hin].
  - rewrite Z.eqb_refl. f_equal.
    apply filter_absent. intros r Hr E. apply Hnotin. rewrite <- E.
    apply in_map. exact Hr.
  - destruct (Z.eqb_spec (id r) (id j)) as [E|_].
    + exfalso. apply Hnotin. rewrite E. apply in_map. exact Hin.
    + apply IH; assumption.
Qed.

Lemma set_updateData_id : forall input now r, id (set_updateData input now r) = id r.
Proof. reflexivity. Qed.

Lemma first_row_if_any :
  forall l : list TranslationJob,
    (if (0 <? List.length l)%nat then first_row l else None) = first_row l.
Proof. intros [|r l]; reflexivity. Qed.

(** Moving an id that a list does not hold changes nothing. *)
Lemma move_to_end_absent :
  forall k ids, ~ In k ids -> move_to_end k ids = ids.
Proof.
  intros k ids. unfold move_to_end.
  induction ids as [|i ids IH]; intros Hno; simpl; [reflexivity|].
  destruct (Z.eqb_spec i k) as [E|_].
  - exfalso. apply Hno. left. exact E.
  - simpl. f_equal. apply IH. intros H. apply Hno. right. exact H.
Qed.

Lemma move_to_end_perm : forall k ids, Permutation ids (move_to_end k ids).
Proof.
  intros k ids. unfold move_to_end.
  induction ids as [|i ids IH]; simpl; [constructor|].
  destruct (i =? k); simpl.
  - apply Permutation_cons_app. exact IH.
  - apply perm_skip. exact IH.
Qed.

Lemma move_to_end_twice :
  forall k ids, move_to_end k (move_to_end k ids) = move_to_end k ids.
Proof.
  intros k ids. unfold move_to_end. rewrite !filter_app.
  assert (A : forall l, filter (fun i => negb (i =? k)) (filter (fun i => negb (i =? k)) l)
                        = filter (fun i => negb (i =? k)) l).
  { induction l as [|i l IH]; simpl; [reflexivity|].
    destruct (i =? k) eqn:E; simpl; [exact IH | rewrite E; simpl; f_equal; exact IH]. }
  assert (B : forall l, filter (fun i => negb (i =? k)) (filter (fun i => i =? k) l) = []).
  { induction l as [|i l IH]; simpl; [reflexivity|].
    destruct (i =? k) eqn:E; simpl; [rewrite E; simpl; exact IH | exact IH]. }
  assert (C : forall l, filter (fun i => i =? k) (filter (fun i => negb (i =? k)) l) = []).
  { induction l as [|i l IH]; simpl; [reflexivity|].
    destruct (i =? k) eqn:E; simpl; [exact IH | rewrite E; exact IH]. }
  assert (D : forall l, filter (fun i => i =? k) (filter (fun i => i =? k) l)
                        = filter (fun i => i =? k) l).
  { induction l as [|i l IH]; simpl; [reflexivity|].
    destruct (i =? k) eqn:E; simpl; [rewrite E; f_equal; exact IH | exact IH]. }
  rewrite A, B, C, D, app_nil_r. reflexivity.
Qed.

(** ** The statements, accepted or refused *)

Lemma db_insert_cases :
  forall v now d,
    (exists e, db_insert v now d = (Err e, d))
    \/ (forallb pg_text_ok (insert_texts v) = true
        /\ int4_ok (next_id d) = true
        /\ db_insert v now d
           = (Ok [inserted_row v (next_id d) now],
              {| rows := rows d ++ [inserted_row v (next_id d) now];
                 next_id := next_id d + 1;
                 heap := heap d ++ [next_id d] |})).
Proof.
  intros v now d. unfold db_insert.
  destruct (forallb pg_text_ok (insert_texts v)); simpl; [|left; eexists; reflexivity].
  destruct (int4_ok (next_id d)); simpl; [|left; eexists; reflexivity].
  right. repeat split.
Qed.

Lemma getTranslationJob_first_row :
  forall k d,
    int4_ok k = true ->
    getTranslationJob {| get_id := k |} d
    = Ok (first_row (filter (fun r => id r =? k) (rows d))).
Proof.
  intros k d Hk. unfold getTranslationJob, db_select_by_id. simpl. rewrite Hk.
  destruct (filter (fun r => id r =? k) (rows d)) as [|[] rest]; reflexivity.
Qed.

Lemma getTranslationJob_out_of_range :
  forall k d,
    int4_ok k = false ->
    getTranslationJob {| get_id := k |} d = Err (PgThrown numeric_value_out_of_range).
Proof.
  intros k d Hk. unfold getTranslationJob, db_select_by_id. simpl. rewrite Hk.
  reflexivity.
Qed.

Lemma getTranslationJob_in_range :
  forall k d j, getTranslationJob {| get_id := k |} d = Ok j -> int4_ok k = true.
Proof.
  intros k d j H. destruct (int4_ok k) eqn:E; [reflexivity|].
  rewrite getTranslationJob_out_of_range in H by exact E. discriminate.
Qed.

Lemma updateTranslationJob_accepted :
  forall input now d,
    int4_ok (update_id input) = true -> update_storable input = true ->
    updateTranslationJob input now d
    = (Ok (first_row (map (set_updateData input now)
                        (filter (fun r => id r =? update_id input) (rows d)))),
       {| rows := map (fun r => if id r =? update_id input
                                then set_updateData input now r else r) (rows d);
          next_id := next_id d;
          heap := move_to_end (update_id input) (heap d) |}).
Proof.
  intros input now d Hk Hs. unfold updateTranslationJob, db_update_by_id.
  change (set_texts (updateData input now)) with (update_texts input).
  unfold update_storable in Hs. rewrite Hs, Hk. simpl.
  rewrite first_row_if_any. reflexivity.
Qed.

Lemma updateTranslationJob_not_storable :
  forall input now d,
    update_storable input = false ->
    updateTranslationJob input now d = (Err (PgThrown invalid_byte_sequence), d).
Proof.
  intros input now d Hs. unfold updateTranslationJob, db_update_by_id.
  change (set_texts (updateData input now)) with (update_texts input).
  unfold update_storable in Hs. rewrite Hs. reflexivity.
Qed.

Lemma updateTranslationJob_out_of_range :
  forall input now d,
    update_storable input = true -> int4_ok (update_id input) = false ->
    updateTranslationJob input now d = (Err (PgThrown numeric_value_out_of_range), d).
Proof.
  intros input now d Hs Hk. unfold updateTranslationJob, db_update_by_id.
  change (set_texts (updateData input now)) with (update_texts input).
  unfold update_storable in Hs. rewrite Hs, Hk. reflexivity.
Qed.

Lemma updateTranslationJob_cases :
  forall input now d,
    (exists e, updateTranslationJob input now d = (Err (PgThrown e), d))
    \/ (int4_ok (update_id input) = true
        /\ update_storable input = true
        /\ updateTranslationJob input now d
           = (Ok (first_row (map (set_updateData input now)
                               (filter (fun r => id r =? update_id input) (rows d)))),
              {| rows := map (fun r => if id r =? update_id input
                                       then set_updateData input now r else r) (rows d);
                 next_id := next_id d;
                 heap := move_to_end (update_id input) (heap d) |})).
Proof.
  intros input now d.
  destruct (update_storable input) eqn:Hs.
  - destruct (int4_ok (update_id input)) eqn:Hk.
    + right. split; [reflexivity|]. split; [reflexivity|].
      apply updateTranslationJob_accepted; assumption.
    + left. eexists. apply updateTranslationJob_out_of_range; assumption.
  - left. eexists. apply updateTranslationJob_not_storable. exact Hs.
Qed.

Lemma snd_updateTranslationJob :
  forall input now d,
    snd (updateTranslationJob input now d)
    = if int4_ok (update_id input) && update_storable input
      then {| rows := map (fun r => if id r =? update_id input
                                    then set_updateData input now r else r) (rows d);
              next_id := next_id d;
              heap := move_to_end (update_id input) (heap d) |}
      else d.
Proof.
  intros input now d.
  destruct (updateTranslationJob_cases input now d) as [[e E] | (Hk & Hs & E)].
  - rewrite E. cbn [snd].
    destruct (int4_ok (update_id input)) eqn:Hk; [|reflexivity].
    destruct (update_storable input) eqn:Hs; [|reflexivity].
    rewrite updateTranslationJob_accepted in E by assumption. discriminate E.
  - rewrite E, Hk, Hs. reflexivity.
Qed.

Lemma fst_updateTranslationJob :
  forall input now d,
    fst (updateTranslationJob input now d)
    = if update_storable input
      then if int4_ok (update_id input)
           then Ok (first_row (map (set_updateData input now)
                                 (filter (fun r => id r =? update_id input) (rows d))))
           else Err (PgThrown numeric_value_out_of_range)
      else Err (PgThrown invalid_byte_sequence).
Proof.
  intros input now d.
  destruct (update_storable input) eqn:Hs.
  - destruct (int4_ok (update_id input)) eqn:Hk.
    + rewrite updateTranslationJob_accepted by assumption. reflexivity.
    + rewrite updateTranslationJob_out_of_range by assumption. reflexivity.
  - rewrite updateTranslationJob_not_storable by assumption. reflexivity.
Qed.

Lemma db_wf_no_row_no_heap :
  forall d k, db_wf d -> (forall r, In r (rows d) -> id r <> k) -> ~ In k (heap d).
Proof.
  intros d k (_ & _ & _ & Hheap) Hno Hin.
  apply (Permutation_in _ Hheap) in Hin.
  apply in_map_iff in Hin. destruct Hin as (r & E & Hr).
  exact (Hno r Hr E).
Qed.

Section ServerFacts.
Context {runtime : Runtime}.

Lemma world_eta : forall w : World, {| db := db w; storage := storage w |} = w.
Proof. intros []. reflexivity. Qed.

(** An update addressed to an id that is not in the table is a no-op. *)
Lemma updateTranslationJob_absent :
  forall d input now,
    db_wf d ->
    (forall r, In r (rows d) -> id r <> update_id input) ->
    snd (updateTranslationJob input now d) = d
    /\ (int4_ok (update_id input) = true -> update_storable input = true ->
        updateTranslationJob input now d = (Ok None, d)).
Proof.
  intros d input now Hwf Hno.
  assert (A : int4_ok (update_id input) = true -> update_storable input = true ->
              updateTranslationJob input now d = (Ok None, d)).
  { intros Hk Hs. rewrite updateTranslationJob_accepted by assumption.
    rewrite (filter_absent _ _ Hno), (touch_absent _ _ _ Hno).
    rewrite move_to_end_absent by (apply db_wf_no_row_no_heap; assumption).
    destruct d. reflexivity. }
  split; [|exact A].
  destruct (updateTranslationJob_cases input now d) as [[e ->] | (Hk & Hs & _)].
  - reflexivity.
  - rewrite A by assumption. reflexivity.
Qed.

(** An accepted update addressed to a row of the table rewrites that
    row. *)
Lemma updateTranslationJob_present :
  forall d input now j,
    db_wf d -> In j (rows d) -> id j = update_id input ->
    update_storable input = true ->
    fst (updateTranslationJob input now d) = Ok (Some (set_updateData input now j))
    /\ filter (fun r => id r =? id j) (rows (snd (updateTranslationJob input now d)))
       = [set_updateData input now j]
    /\ int4_ok (id j) = true.
Proof.
  intros d input now j (Hnd & _ & Hint & _) Hin Hid Hs.
  assert (Hk : int4_ok (id j) = true).
  { rewrite Forall_forall in Hint. exact (Hint j Hin). }
  rewrite updateTranslationJob_accepted by (try rewrite <- Hid; assumption).
  simpl. rewrite <- Hid.
  rewrite (filter_touched_same (id j) _ (set_updateData_id input now)).
  rewrite (filter_unique_id _ _ Hnd Hin). simpl. repeat split. exact Hk.
Qed.

(** C3, amended. For an id that no row carries, neither the lookup nor
    the update writes or creates anything, whatever they answer. When the
    id is a 32-bit integer the lookup answers with the absent value, and
    so does the update when none of its texts contains U+0000. When the
    id is outside the 32-bit range the lookup is refused by PostgreSQL
    and answered with INTERNAL_SERVER_ERROR, and so is the update, as it
    is when one of its texts contains U+0000. *)
Theorem missing_id_is_not_found :
  forall (w : World) (k : Z) (input : UpdateTranslationJobInput) (now : Z)
         (raw_get raw_update : JsValue),
    db_wf (db w) ->
    (forall r, In r (rows (db w)) -> id r <> k) ->
    update_id input = k ->
    getTranslationJobInputSchema raw_get = Ok {| get_id := k |} ->
    updateTranslationJobInputSchema raw_update = Ok input ->
    (snd (updateTranslationJob input now (db w)) = db w
     /\ snd (proc_getTranslationJob raw_get w) = w
     /\ snd (proc_updateTranslationJob raw_update now w) = w)
    /\ (int4_ok k = true ->
        getTranslationJob {| get_id := k |} (db w) = Ok None
        /\ proc_getTranslationJob raw_get w = (Ok None, w))
    /\ (int4_ok k = true -> update_storable input = true ->
        updateTranslationJob input now (db w) = (Ok None, db w)
        /\ proc_updateTranslationJob raw_update now w = (Ok None, w))
    /\ (int4_ok k = false ->
        proc_getTranslationJob raw_get w
        = (Err (INTERNAL_SERVER_ERROR (PgThrown numeric_value_out_of_range)), w))
    /\ (int4_ok k = false \/ update_storable input = false ->
        exists cause,
          proc_updateTranslationJob raw_update now w
          = (Err (INTERNAL_SERVER_ERROR (PgThrown cause)), w)).
Proof.
  intros w k input now raw_get raw_update Hwf Hno Hk Hget Hupd.
  assert (Hno' : forall r, In r (rows (db w)) -> id r <> update_id input)
    by (rewrite Hk; exact Hno).
  destruct (updateTranslationJob_absent (db w) input now Hwf Hno') as [Hsame Hnone].
  assert (G : int4_ok k = true -> getTranslationJob {| get_id := k |} (db w) = Ok None).
  { intros Hin. rewrite getTranslationJob_first_row by exact Hin.
    rewrite (filter_absent _ _ Hno). reflexivity. }
  assert (P : snd (proc_updateTranslationJob raw_update now w) = w).
  { unfold proc_updateTranslationJob. rewrite Hupd.
    destruct (updateTranslationJob input now (db w)) as [job d'] eqn:E.
    simpl in Hsame. subst d'. simpl. apply world_eta. }
  split; [split; [exact Hsame | split; [|exact P]]|].
  { unfold proc_getTranslationJob. rewrite Hget. reflexivity. }
  split.
  { intros Hin. split; [exact (G Hin)|].
    unfold proc_getTranslationJob. rewrite Hget, (G Hin). reflexivity. }
  split.
  { intros Hin Hs. rewrite <- Hk in Hin. split; [exact (Hnone Hin Hs)|].
    unfold proc_updateTranslationJob. rewrite Hupd, (Hnone Hin Hs), world_eta.
    reflexivity. }
  split.
  { intros Hout. unfold proc_getTranslationJob.
    rewrite Hget, getTranslationJob_out_of_range by exact Hout. reflexivity. }
  intros Hbad. unfold proc_updateTranslationJob. rewrite Hupd.
  destruct (updateTranslationJob_cases input now (db w)) as [[e E] | (Hin & Hs & _)].
  - exists e. rewrite E, world_eta. reflexivity.
  - exfalso. rewrite Hk in Hin. destruct Hbad as [H|H]; congruence.
Qed.

End ServerFacts.

(** C1, amended. Updating a job that exists with texts that PostgreSQL
    can store returns and stores the same record; in it every supplied
    field holds the supplied value (an explicit null leaves the field
    absent), every field that was not supplied holds its former value,
    [updated_at] is the time of the update, the fields that no update can
    name are as before, and the other jobs are untouched. When one of the
    supplied texts contains U+0000 the update is refused: the handler
    throws and the table stays as it was. *)
Theorem update_changes_supplied_fields_only :
  forall (d : Db) (input : UpdateTranslationJobInput) (now : Z) (j : TranslationJob),
    db_wf d -> In j (rows d) -> id j = update_id input ->
    (update_storable input = true ->
     exists j' : TranslationJob,
       fst (updateTranslationJob input now d) = Ok (Some j')
       /\ getTranslationJob {| get_id := id j |} (snd (updateTranslationJob input now d))
          = Ok (Some j')
       /\ field_after (option_map Some (update_detected_language input))
            (detected_language j) (detected_language j')
       /\ field_after (update_status input) (status j) (status j')
       /\ field_after (update_translated_file_path input)
            (translated_file_path j) (translated_file_path j')
       /\ field_after (update_transcript input) (transcript j) (transcript j')
       /\ field_after (update_translated_transcript input)
            (translated_transcript j) (translated_transcript j')
       /\ field_after (update_error_message input) (error_message j) (error_message j')
       /\ updated_at j' = now
       /\ (id j' = id j /\ original_filename j' = original_filename j
           /\ original_file_path j' = original_file_path j
           /\ target_language j' = target_language j
           /\ created_at j' = created_at j)
       /\ (forall k, k <> id j ->
             getTranslationJob {| get_id := k |} (snd (updateTranslationJob input now d))
             = getTranslationJob {| get_id := k |} d)
       /\ List.length (rows (snd (updateTranslationJob input now d)))
          = List.length (rows d))
    /\ (update_storable input = false ->
        updateTranslationJob input now d = (Err (PgThrown invalid_byte_sequence), d)).
Proof.
  intros d input now j Hwf Hin Hid. split.
  - intros Hs.
    destruct (updateTranslationJob_present d input now j Hwf Hin Hid Hs)
      as (Hret & Hsto & Hk).
    exists (set_updateData input now j).
    split; [exact Hret|].
    split; [rewrite getTranslationJob_first_row, Hsto by exact Hk; reflexivity|].
    unfold field_after, supplied. simpl.
    repeat match goal with
           | |- _ /\ _ => split
           | |- context [match ?u with Some _ => _ | None => _ end] => destruct u; simpl
           end; try reflexivity.
    + intros k Hne.
      destruct (int4_ok k) eqn:Hin4.
      * rewrite !getTranslationJob_first_row by exact Hin4.
        rewrite updateTranslationJob_accepted by (try rewrite <- Hid; assumption).
        simpl.
        rewrite (filter_touched_other (update_id input) _ (set_updateData_id input now)).
        -- reflexivity.
        -- congruence.
      * rewrite !getTranslationJob_out_of_range by exact Hin4. reflexivity.
    + rewrite updateTranslationJob_accepted by (try rewrite <- Hid; assumption).
      simpl. apply length_map.
  - intros Hs. apply updateTranslationJob_not_storable. exact Hs.
Qed.

(** ** Validation of creation inputs *)

Lemma supportedLanguagesSchema_code :
  forall l, supportedLanguagesSchema (JsString (language_code l)) = Ok l.
Proof. intros []; reflexivity. Qed.

Lemma supportedLanguagesSchema_inv :
  forall v l, supportedLanguagesSchema v = Ok l -> v = JsString (language_code l).
Proof.
  intros v l. unfold supportedLanguagesSchema, z_enum.
  destruct v; try discriminate.
  destruct (find _ supportedLanguages) as [o|] eqn:F; [|discriminate].
  intros [= ->]. apply find_some in F. destruct F as [_ F].
  apply String.eqb_eq in F. congruence.
Qed.

Lemma z_string_min1_nonempty :
  forall message s, s <> "" -> z_string_min1 message (JsString s) = Ok s.
Proof. intros message [|c s] H; [contradiction | reflexivity]. Qed.

Lemma createTranslationJobInputSchema_accepts :
  forall o f p l,
    get_prop "original_filename" o = JsString f -> f <> "" ->
    get_prop "original_file_path" o = JsString p -> p <> "" ->
    get_prop "target_language" o = JsString (language_code l) ->
    createTranslationJobInputSchema (JsObject o)
    = Ok {| create_original_filename := f;
            create_original_file_path := p;
            create_target_language := l |}.
Proof.
  intros o f p l Hf Hfne Hp Hpne Hl.
  unfold createTranslationJobInputSchema, field.
  rewrite Hf, Hp, Hl, !z_string_min1_nonempty, supportedLanguagesSchema_code by assumption.
  reflexivity.
Qed.

Lemma createTranslationJobInputSchema_inv :
  forall o input,
    createTranslationJobInputSchema (JsObject o) = Ok input ->
    get_prop "original_filename" o = JsString (create_original_filename input)
    /\ create_original_filename input <> ""
    /\ get_prop "original_file_path" o = JsString (create_original_file_path input)
    /\ create_original_file_path input <> ""
    /\ get_prop "target_language" o
       = JsString (language_code (create_target_language input)).
Proof.
  intros o input. unfold createTranslationJobInputSchema, field.
  destruct (z_string_min1 _ (get_prop "original_filename" o)) as [f|] eqn:Ef;
    destruct (z_string_min1 _ (get_prop "original_file_path" o)) as [p|] eqn:Ep;
    destruct (supportedLanguagesSchema (get_prop "target_language" o)) as [l|] eqn:El;
    simpl; try discriminate.
  intros [= <-]. simpl.
  apply supportedLanguagesSchema_inv in El.
  unfold z_string_min1 in Ef, Ep.
  destruct (get_prop "original_filename" o); try discriminate.
  destruct (get_prop "original_file_path" o); try discriminate.
  destruct s as [|c s]; [discriminate|]. destruct s0 as [|c0 s0]; [discriminate|].
  simpl in Ef, Ep. injection Ef as <-. injection Ep as <-.
  repeat split; try assumption; discriminate.
Qed.

Section Creation.
Context {runtime : Runtime}.

(** C2, amended. A creation input with a non-empty filename, a non-empty
    path and a target language among the twelve codes is accepted by the
    schema; when, further, neither text contains U+0000 and the id
    sequence is not exhausted, the job that is returned carries the next
    id of the sequence and the three given values, has status pending,
    has none of its five optional fields set, has equal creation and
    update times, and is the row appended to the table. *)
Theorem create_returns_pending_job :
  forall (w : World) (now : Z) (o : list (string * JsValue)) (f p s : string),
    get_prop "original_filename" o = JsString f -> f <> "" ->
    get_prop "original_file_path" o = JsString p -> p <> "" ->
    get_prop "target_language" o = JsString s ->
    In s (map language_code supportedLanguages) ->
    pg_text_ok f = true -> pg_text_ok p = true ->
    int4_ok (next_id (db w)) = true ->
    exists j : TranslationJob,
      fst (proc_createTranslationJob (JsObject o) now w) = Ok (Some j)
      /\ rows (db (snd (proc_createTranslationJob (JsObject o) now w)))
         = (rows (db w) ++ [j])%list
      /\ id j = next_id (db w)
      /\ original_filename j = f /\ original_file_path j = p
      /\ language_code (target_language j) = s
      /\ status j = pending
      /\ detected_language j = None
      /\ translated_file_path j = None
      /\ transcript j = None
      /\ translated_transcript j = None
      /\ error_message j = None
      /\ created_at j = updated_at j.
Proof.
  intros w now o f p s Hf Hfne Hp Hpne Hs Hin Hft Hpt Hseq.
  apply in_map_iff in Hin. destruct Hin as [l [<- _]].
  unfold proc_createTranslationJob.
  rewrite (createTranslationJobInputSchema_accepts o f p l) by assumption.
  unfold createTranslationJob, db_insert, insert_texts. simpl.
  rewrite Hft, Hpt, Hseq. simpl.
  eexists. split; [reflexivity|]. repeat split.
Qed.

(** C9. A creation input whose filename is the empty string, whose path
    is the empty string, or whose target language is not one of the
    twelve codes is answered with a validation error, and the world (table
    and files) is left as it was. *)
Theorem create_rejects_invalid_input :
  forall (w : World) (now : Z) (o : list (string * JsValue)),
    get_prop "original_filename" o = JsString ""
    \/ get_prop "original_file_path" o = JsString ""
    \/ (forall l, get_prop "target_language" o <> JsString (language_code l)) ->
    exists issues,
      proc_createTranslationJob (JsObject o) now w = (Err (BAD_REQUEST issues), w).
Proof.
  intros w now o Hbad. unfold proc_createTranslationJob.
  destruct (createTranslationJobInputSchema (JsObject o)) as [input|issues] eqn:E.
  - exfalso. apply createTranslationJobInputSchema_inv in E.
    destruct E as (Hf & Hfne & Hp & Hpne & Hl).
    destruct Hbad as [H|[H|H]].
    + rewrite Hf in H. injection H as H. contradiction.
    + rewrite Hp in H. injection H as H. contradiction.
    + exact (H _ Hl).
  - exists issues. reflexivity.
Qed.

End Creation.

(** ** The update timestamp *)

(** C7. The job of [one_job_db] was written at millisecond 1000; an
    empty update of it whose handler reads the same millisecond returns
    the job with the [updated_at] it had, not a greater one. *)
Theorem update_in_same_millisecond_keeps_updated_at :
  exists j j' : TranslationJob,
    rows one_job_db = [j] /\ id j = 1 /\ updated_at j = 1000
    /\ updateTranslationJobInputSchema (JsObject [("id", JsNumber 1)])
       = Ok (empty_update 1)
    /\ fst (updateTranslationJob (empty_update 1) 1000 one_job_db) = Ok (Some j')
    /\ updated_at j' = updated_at j
    /\ ~ updated_at j < updated_at j'.
Proof.
  exists one_job, one_job.
  repeat split. simpl. lia.
Qed.

(** ** What one call does to the table *)

Section Histories.
Context {runtime : Runtime}.

(** An upload or a creation leaves the table alone or inserts a row. *)
Lemma exec_insert_cases :
  forall c w,
    (forall now raw, c <> call_updateTranslationJob now raw) ->
    db (exec c w) = db w
    \/ (exists v, db (exec c w) = snd (db_insert v (call_time c) (db w))).
Proof.
  intros [timestamp random36 now raw | now raw | now raw] w Hc; simpl.
  - unfold proc_uploadVideo.
    destruct (uploadVideoInputSchema raw) as [input|issues]; [|left; reflexivity].
    unfold uploadVideo.
    destruct (mkdir_recursive _ (storage w)) as [[e|] st]; [left; reflexivity|].
    destruct (writeFile _ _ st) as [[e|] st']; [left; reflexivity|].
    right.
    match goal with |- context [db_insert ?v now (db w)] =>
      exists v; destruct (db_insert v now (db w)) as [result d'] end.
    reflexivity.
  - unfold proc_createTranslationJob.
    destruct (createTranslationJobInputSchema raw) as [input|issues]; [|left; reflexivity].
    right. unfold createTranslationJob.
    match goal with |- context [db_insert ?v now (db w)] =>
      exists v; destruct (db_insert v now (db w)) as [result d'] end.
    reflexivity.
  - exfalso. exact (Hc now raw eq_refl).
Qed.

(** An update leaves the table alone or runs the handler on the parsed
    input. *)
Lemma exec_update_cases :
  forall now raw w,
    db (exec (call_updateTranslationJob now raw) w) = db w
    \/ (exists input,
          updateTranslationJobInputSchema raw = Ok input
          /\ db (exec (call_updateTranslationJob now raw) w)
             = snd (updateTranslationJob input now (db w))).
Proof.
  intros now raw w. simpl. unfold proc_updateTranslationJob.
  destruct (updateTranslationJobInputSchema raw) as [input|issues]; [|left; reflexivity].
  right. exists input. split; [reflexivity|].
  destruct (updateTranslationJob input now (db w)) as [job d']. reflexivity.
Qed.

Lemma exec_cases :
  forall c w,
    db (exec c w) = db w
    \/ (exists v, db (exec c w) = snd (db_insert v (call_time c) (db w)))
    \/ (exists input,
          db (exec c w) = snd (updateTranslationJob input (call_time c) (db w))).
Proof.
  intros c w.
  destruct c as [timestamp random36 now raw | now raw | now raw].
  - destruct (exec_insert_cases (call_uploadVideo timestamp random36 now raw) w)
      as [H|H]; [discriminate | left; exact H | right; left; exact H].
  - destruct (exec_insert_cases (call_createTranslationJob now raw) w)
      as [H|H]; [discriminate | left; exact H | right; left; exact H].
  - destruct (exec_update_cases now raw w) as [H | (input & _ & H)];
      [left; exact H | right; right; exists input; exact H].
Qed.

Lemma run_cons : forall c calls w, run (c :: calls) w = run calls (exec c w).
Proof. reflexivity. Qed.

End Histories.

(** ** The detected language *)

Lemma updateTranslationJobInputSchema_detected_language :
  forall o input,
    updateTranslationJobInputSchema (JsObject o) = Ok input ->
    (get_prop "detected_language" o = JsUndefined
     /\ update_detected_language input = None)
    \/ (exists l, get_prop "detected_language" o = JsString (language_code l)
                  /\ update_detected_language input = Some l).
Proof.
  intros o input. unfold updateTranslationJobInputSchema, field.
  destruct (z_number (get_prop "id" o)); simpl;
    destruct (z_optional supportedLanguagesSchema (get_prop "detected_language" o))
      as [dl|] eqn:Edl; simpl;
    destruct (z_optional translationStatusSchema (get_prop "status" o)); simpl;
    destruct (z_optional (z_nullable z_string) (get_prop "translated_file_path" o)); simpl;
    destruct (z_optional (z_nullable z_string) (get_prop "transcript" o)); simpl;
    destruct (z_optional (z_nullable z_string) (get_prop "translated_transcript" o)); simpl;
    destruct (z_optional (z_nullable z_string) (get_prop "error_message" o)); simpl;
    try discriminate.
  intros [= <-]. simpl.
  unfold z_optional in Edl.
  destruct (get_prop "detected_language" o) eqn:Ev;
    try (left; split; [reflexivity | congruence]);
    try (rewrite <- Ev in Edl;
         destruct (supportedLanguagesSchema (get_prop "detected_language" o))
           as [l|] eqn:El; [|discriminate];
         apply supportedLanguagesSchema_inv in El; injection Edl as <-;
         right; exists l; split; [congruence | reflexivity]).
Qed.

Lemma language_known_insert :
  forall k v now d, language_known k d -> language_known k (snd (db_insert v now d)).
Proof.
  intros k v now d (j & l & Hget & Hl).
  destruct (db_insert_cases v now d) as [[e ->] | (_ & _ & ->)];
    [exists j, l; split; assumption|].
  exists j, l. split; [|exact Hl].
  pose proof (getTranslationJob_in_range _ _ _ Hget) as Hk.
  rewrite getTranslationJob_first_row in * by exact Hk. simpl.
  rewrite filter_app.
  destruct (filter (fun r => id r =? k) (rows d)); [discriminate | exact Hget].
Qed.

Lemma language_known_update :
  forall k input now d,
    language_known k d -> language_known k (snd (updateTranslationJob input now d)).
Proof.
  intros k input now d (j & l & Hget & Hl).
  destruct (updateTranslationJob_cases input now d) as [[e ->] | (_ & _ & ->)];
    [exists j, l; split; assumption|].
  pose proof (getTranslationJob_in_range _ _ _ Hget) as Hk.
  rewrite getTranslationJob_first_row in Hget by exact Hk.
  unfold language_known. simpl.
  destruct (Z.eq_dec k (update_id input)) as [->|Hne].
  - destruct (filter (fun r => id r =? update_id input) (rows d)) as [|r rest] eqn:F;
      [discriminate|].
    injection Hget as ->.
    exists (set_updateData input now j).
    rewrite getTranslationJob_first_row by exact Hk. simpl.
    rewrite (filter_touched_same _ _ (set_updateData_id input now)), F. simpl.
    unfold supplied.
    destruct (update_detected_language input) as [l'|]; simpl; eauto.
  - exists j, l. split; [|exact Hl].
    rewrite getTranslationJob_first_row by exact Hk. simpl.
    rewrite (filter_touched_other _ _ (set_updateData_id input now)) by exact Hne.
    exact Hget.
Qed.

Section DetectedLanguage.
Context {runtime : Runtime}.

Lemma language_known_exec :
  forall k c w, language_known k (db w) -> language_known k (db (exec c w)).
Proof.
  intros k c w H.
  destruct (exec_cases c w) as [-> | [(v & ->) | (input & ->)]].
  - exact H.
  - apply language_known_insert. exact H.
  - apply language_known_update. exact H.
Qed.

(** C10. Once a job has a detected language, it has one after every
    further history of calls: the job is still found under its id and its
    detected language is a language code. The reason is in the schema: an
    accepted update either leaves [detected_language] out or gives one of
    the twelve codes, and an update that gives an explicit null is
    refused and changes nothing. *)
Theorem detected_language_never_cleared :
  forall (calls : list Call) (w : World) (k : Z) (j : TranslationJob)
         (l : SupportedLanguage),
    getTranslationJob {| get_id := k |} (db w) = Ok (Some j) ->
    detected_language j = Some l ->
    (exists j' l',
        getTranslationJob {| get_id := k |} (db (run calls w)) = Ok (Some j')
        /\ detected_language j' = Some l')
    /\ (forall o input,
          updateTranslationJobInputSchema (JsObject o) = Ok input ->
          get_prop "detected_language" o <> JsNull
          /\ forall now r, detected_language r <> None ->
                           detected_language (set_updateData input now r) <> None)
    /\ (forall o now,
          get_prop "detected_language" o = JsNull ->
          exists issues,
            proc_updateTranslationJob (JsObject o) now (run calls w)
            = (Err (BAD_REQUEST issues), run calls w)).
Proof.
  intros calls w k j l Hget Hl.
  assert (Hinv : forall o input,
             updateTranslationJobInputSchema (JsObject o) = Ok input ->
             get_prop "detected_language" o <> JsNull).
  { intros o input Hok.
    destruct (updateTranslationJobInputSchema_detected_language o input Hok)
      as [[E _] | (l0 & E & _)]; rewrite E; discriminate. }
  split; [|split].
  - assert (H : language_known k (db w)) by (exists j, l; auto).
    clear Hget Hl. revert w H.
    induction calls as [|c calls IH]; intros w H.
    + exact H.
    + rewrite run_cons. apply IH. apply language_known_exec. exact H.
  - intros o input Hok. split; [exact (Hinv o input Hok)|].
    intros now r Hr. simpl. unfold supplied.
    destruct (update_detected_language input); simpl; [discriminate | exact Hr].
  - intros o now Hnull. unfold proc_updateTranslationJob.
    destruct (updateTranslationJobInputSchema (JsObject o)) as [input|issues] eqn:E.
    + exfalso. exact (Hinv o input E Hnull).
    + exists issues. reflexivity.
Qed.

End DetectedLanguage.

(** ** The table stays well formed *)

Lemma db_wf_empty : db_wf empty_db.
Proof. repeat split; constructor. Qed.

Lemma db_wf_insert : forall v now d, db_wf d -> db_wf (snd (db_insert v now d)).
Proof.
  intros v now d Hwf.
  destruct (db_insert_cases v now d) as [[e ->] | (_ & Hseq & ->)]; [exact Hwf|].
  destruct Hwf as (Hnd & Hlt & Hint & Hheap). unfold db_wf. simpl.
  split; [|split; [|split]].
  - rewrite map_app. simpl. apply NoDup_app.
    + exact Hnd.
    + apply NoDup_cons; [intros [] | constructor].
    + intros x Hx [<-|[]]. apply in_map_iff in Hx. destruct Hx as (r & E & Hr).
      rewrite Forall_forall in Hlt. specialize (Hlt r Hr). lia.
  - apply Forall_app. split.
    + eapply Forall_impl; [|exact Hlt]. simpl. intros; lia.
    + constructor; [simpl; lia | constructor].
  - apply Forall_app. split; [exact Hint|].
    constructor; [exact Hseq | constructor].
  - rewrite map_app. simpl. apply Permutation_app_tail. exact Hheap.
Qed.

Lemma db_wf_update :
  forall input now d, db_wf d -> db_wf (snd (updateTranslationJob input now d)).
Proof.
  intros input now d Hwf.
  destruct (updateTranslationJob_cases input now d) as [[e ->] | (_ & _ & ->)];
    [exact Hwf|].
  destruct Hwf as (Hnd & Hlt & Hint & Hheap). unfold db_wf. simpl.
  rewrite (map_id_touch _ _ (set_updateData_id input now)).
  split; [exact Hnd|]. split; [|split].
  - apply Forall_map. eapply Forall_impl; [|exact Hlt].
    simpl. intros r Hr. destruct (id r =? update_id input); exact Hr.
  - apply Forall_map. eapply Forall_impl; [|exact Hint].
    simpl. intros r Hr. destruct (id r =? update_id input); exact Hr.
  - eapply perm_trans; [|exact Hheap].
    apply Permutation_sym, move_to_end_perm.
Qed.

(** ** Creation time and update time *)

Lemma timestamps_ordered_later :
  forall t t' d, t <= t' -> timestamps_ordered t d -> timestamps_ordered t' d.
Proof.
  intros t t' d Hle H. unfold timestamps_ordered in *.
  eapply Forall_impl; [|exact H]. simpl. intros r [H1 H2]. lia.
Qed.

Lemma timestamps_ordered_insert :
  forall v now d,
    timestamps_ordered now d -> timestamps_ordered now (snd (db_insert v now d)).
Proof.
  intros v now d H.
  destruct (db_insert_cases v now d) as [[e ->] | (_ & _ & ->)]; [exact H|].
  unfold timestamps_ordered in *. simpl.
  apply Forall_app. split; [exact H|].
  constructor; [simpl; lia | constructor].
Qed.

Lemma timestamps_ordered_update :
  forall input now d,
    timestamps_ordered now d ->
    timestamps_ordered now (snd (updateTranslationJob input now d)).
Proof.
  intros input now d H.
  destruct (updateTranslationJob_cases input now d) as [[e ->] | (_ & _ & ->)];
    [exact H|].
  unfold timestamps_ordered in *. simpl. apply Forall_map.
  eapply Forall_impl; [|exact H]. simpl. intros r [H1 H2].
  destruct (id r =? update_id input); simpl; lia.
Qed.

Section Invariants.
Context {runtime : Runtime}.

Lemma db_wf_exec : forall c w, db_wf (db w) -> db_wf (db (exec c w)).
Proof.
  intros c w H.
  destruct (exec_cases c w) as [-> | [(v & ->) | (input & ->)]].
  - exact H.
  - apply db_wf_insert. exact H.
  - apply db_wf_update. exact H.
Qed.

Lemma db_wf_run : forall calls w, db_wf (db w) -> db_wf (db (run calls w)).
Proof.
  induction calls as [|c calls IH]; intros w H; [exact H|].
  rewrite run_cons. apply IH, db_wf_exec, H.
Qed.




Lemma timestamps_ordered_exec :
  forall t c w,
    t <= call_time c -> timestamps_ordered t (db w) ->
    timestamps_ordered (call_time c) (db (exec c w)).
Proof.
  intros t c w Hle H.
  apply (timestamps_ordered_later _ _ _ Hle) in H.
  destruct (exec_cases c w) as [-> | [(v & ->) | (input & ->)]].
  - exact H.
  - apply timestamps_ordered_insert. exact H.
  - apply timestamps_ordered_update. exact H.
Qed.

Lemma timestamps_ordered_run :
  forall calls t w,
    timestamps_ordered t (db w) ->
    Forall (Z.le t) (map call_time calls) ->
    StronglySorted Z.le (map call_time calls) ->
    exists t', timestamps_ordered t' (db (run calls w)).
Proof.
  induction calls as [|c calls IH]; intros t w H Hlow Hsorted.
  - exists t. exact H.
  - rewrite run_cons. simpl in Hlow, Hsorted.
    inversion Hlow as [|? ? Hc _]; subst.
    inversion Hsorted as [|? ? Hs Hall]; subst.
    apply (IH (call_time c)).
    + apply (timestamps_ordered_exec t); assumption.
    + exact Hall.
    + exact Hs.
Qed.

(** Along every history of calls in which no stamp is earlier than a
    stamp before it (the stamp of an upload or a creation is read from
    the database clock, that of an update from the handler's clock),
    starting from the empty table, every row of the table has
    [created_at <= updated_at]. *)
Theorem monotone_stamps_keep_order :
  forall calls : list Call,
    StronglySorted Z.le (map call_time calls) ->
    Forall (fun r => created_at r <= updated_at r)
      (rows (db (run calls initial_world))).
Proof.
  intros calls Hsorted.
  assert (H : exists t', timestamps_ordered t' (db (run calls initial_world))).
  { destruct calls as [|c calls].
    - exists 0. constructor.
    - apply (timestamps_ordered_run (c :: calls) (call_time c)).
      + constructor.
      + simpl in *. inversion Hsorted; subst. constructor; [lia | assumption].
      + exact Hsorted. }
  destruct H as [t' H]. unfold timestamps_ordered in H.
  eapply Forall_impl; [|exact H]. simpl. intros r [H1 _]. exact H1.
Qed.

End Invariants.

(** ** Sorting with a comparator *)

Section ArraySortFacts.
Context {A : Type}.
Variable compareFn : A -> A -> Z.

Let before (a b : A) : Prop := compareFn a b <= 0.

Lemma sort_insert_perm :
  forall x l, Permutation (x :: l) (sort_insert compareFn x l).
Proof.
  intros x l. induction l as [|y l IH]; simpl; [apply Permutation_refl|].
  destruct (compareFn x y <=? 0).
  - apply Permutation_refl.
  - eapply perm_trans; [apply perm_swap|]. apply perm_skip. exact IH.
Qed.

Lemma Array_sort_perm : forall l, Permutation l (Array_sort compareFn l).
Proof.
  induction l as [|x l IH]; simpl; [constructor|].
  eapply perm_trans; [apply perm_skip; exact IH | apply sort_insert_perm].
Qed.

Hypothesis compareFn_total : forall a b, before a b \/ before b a.
Hypothesis compareFn_trans : forall a b c, before a b -> before b c -> before a c.

Lemma sort_insert_sorted :
  forall x l, StronglySorted before l -> StronglySorted before (sort_insert compareFn x l).
Proof.
  intros x l H. induction H as [|y l Hs IH Hall]; simpl.
  - constructor; constructor.
  - destruct (Z.leb_spec (compareFn x y) 0) as [Hxy|Hxy].
    + constructor; [constructor; assumption|].
      constructor; [exact Hxy|].
      eapply Forall_impl; [|exact Hall]. intros z Hyz.
      exact (compareFn_trans x y z Hxy Hyz).
    + constructor; [exact IH|].
      apply (Permutation_Forall (sort_insert_perm x l)).
      constructor; [|exact Hall].
      destruct (compareFn_total y x) as [H|H]; [exact H|].
      unfold before in H. lia.
Qed.

Lemma Array_sort_sorted : forall l, StronglySorted before (Array_sort compareFn l).
Proof.
  induction l as [|x l IH]; simpl; [constructor|].
  apply sort_insert_sorted. exact IH.
Qed.

End ArraySortFacts.

(** ** Listing the jobs *)

Lemma StronglySorted_weaken :
  forall (A : Type) (P Q : A -> A -> Prop) (l : list A),
    (forall a b, P a b -> Q a b) -> StronglySorted P l -> StronglySorted Q l.
Proof.
  intros A P Q l HPQ H. induction H as [|x l Hs IH Hall]; constructor.
  - exact IH.
  - eapply Forall_impl; [|exact Hall]. intros b. apply HPQ.
Qed.

Lemma order_desc_allowed :
  forall l, Permutation l (Array_sort (fun a b => created_at b - created_at a) l)
            /\ StronglySorted newest_first
                 (Array_sort (fun a b => created_at b - created_at a) l).
Proof.
  intros l. split; [apply Array_sort_perm|].
  apply StronglySorted_weaken
    with (P := fun a b => created_at b - created_at a <= 0).
  - intros a b Hab. unfold newest_first. lia.
  - apply (Array_sort_sorted (fun a b => created_at b - created_at a)).
    + intros a b. lia.
    + intros a b c. lia.
Qed.

(** A scan of a well-formed table meets every row once. *)
Lemma scan_of_ids :
  forall (l : list TranslationJob) (l0 : list TranslationJob),
    NoDup (map id l) -> incl l0 l ->
    flat_map (fun i => filter (fun r => id r =? i) l) (map id l0) = l0.
Proof.
  intros l l0 Hnd. induction l0 as [|j l0 IH]; intros Hincl; simpl; [reflexivity|].
  rewrite (filter_unique_id l j Hnd) by (apply Hincl; left; reflexivity).
  simpl. f_equal. apply IH. intros x Hx. apply Hincl. right. exact Hx.
Qed.

Lemma scan_perm : forall d, db_wf d -> Permutation (rows d) (scan d).
Proof.
  intros d (Hnd & _ & _ & Hheap). unfold scan.
  eapply perm_trans;
    [|apply Permutation_flat_map, Permutation_sym; exact Hheap].
  rewrite scan_of_ids; [apply Permutation_refl | exact Hnd | apply incl_refl].
Qed.

(** The listing of a well-formed table is a listing in the sense of
    [listing]. *)
Lemma getTranslationJobs_listing :
  forall d, db_wf d ->
    exists jobs, getTranslationJobs d = Ok jobs /\ listing d jobs.
Proof.
  intros d Hwf. exists (order_desc_keep_ties (scan d)).
  split; [reflexivity|].
  destruct (order_desc_allowed (scan d)) as [Hp Hs].
  split; [|exact Hs].
  eapply perm_trans; [apply scan_perm; exact Hwf | exact Hp].
Qed.

Section Listing.
Context {runtime : Runtime}.

(** C4, amended. On every well-formed table the listing answers,
    changes nothing, and holds exactly the rows of the table (each once)
    in descending [created_at]; for the empty table it is empty. The
    order among rows with equal [created_at] is not fixed by the query
    and need not be insertion order. *)
Theorem list_is_sorted_permutation :
  forall w : World,
    db_wf (db w) ->
    exists jobs : list TranslationJob,
      proc_getTranslationJobs w = (Ok jobs, w)
      /\ getTranslationJobs (db w) = Ok jobs
      /\ Permutation (rows (db w)) jobs
      /\ List.length jobs = List.length (rows (db w))
      /\ (forall j, In j jobs <-> In j (rows (db w)))
      /\ StronglySorted newest_first jobs
      /\ (rows (db w) = [] -> jobs = []).
Proof.
  intros w Hwf. exists (order_desc_keep_ties (scan (db w))).
  assert (Hp : Permutation (rows (db w)) (order_desc_keep_ties (scan (db w)))).
  { eapply perm_trans; [apply scan_perm; exact Hwf|].
    apply (order_desc_allowed (scan (db w))). }
  split; [reflexivity|]. split; [reflexivity|]. split; [exact Hp|].
  split; [symmetry; apply Permutation_length; exact Hp|].
  split; [intros j; split; apply Permutation_in;
          [apply Permutation_sym|]; exact Hp|].
  split; [apply (order_desc_allowed (scan (db w)))|].
  intros E. rewrite E in Hp. apply Permutation_nil. exact Hp.
Qed.

End Listing.

(** ** The language catalogue *)

Lemma getSupportedLanguages_value :
  getSupportedLanguages
  = [ {| code := ar; name := "Arabic" |}; {| code := zh; name := "Chinese" |};
      {| code := en; name := "English" |}; {| code := fr; name := "French" |};
      {| code := de; name := "German" |}; {| code := hi; name := "Hindi" |};
      {| code := it; name := "Italian" |}; {| code := ja; name := "Japanese" |};
      {| code := ko; name := "Korean" |}; {| code := pt; name := "Portuguese" |};
      {| code := ru; name := "Russian" |}; {| code := es; name := "Spanish" |} ].
Proof. reflexivity. Qed.

Ltac nodup_by_discriminate :=
  repeat (constructor;
          [ simpl; intros H;
            repeat (destruct H as [H|H]; [discriminate H|]); exact H | ]);
  constructor.

Section Languages.
Context {runtime : Runtime}.

(** C6. The language listing takes no input: whatever the state of the
    world, it answers with the same sequence and changes nothing. The
    sequence has twelve entries, no code and no name occurs twice, the
    codes are exactly the twelve of the enum, each with its name from the
    table, and the entries are in ascending order of name under
    [localeCompare]. *)
Theorem supported_languages_listing :
  forall w1 w2 : World,
    proc_getSupportedLanguages w1 = (Ok getSupportedLanguages, w1)
    /\ fst (proc_getSupportedLanguages w1) = fst (proc_getSupportedLanguages w2)
    /\ List.length getSupportedLanguages = 12%nat
    /\ NoDup (map code getSupportedLanguages)
    /\ NoDup (map name getSupportedLanguages)
    /\ (forall l : SupportedLanguage, In l (map code getSupportedLanguages))
    /\ Permutation supportedLanguages (map code getSupportedLanguages)
    /\ (forall o, In o getSupportedLanguages <-> In (code o, name o) languageNames)
    /\ StronglySorted (fun a b => localeCompare (name a) (name b) <= 0)
         getSupportedLanguages
    /\ StronglySorted (fun a b => localeCompare (name a) (name b) < 0)
         getSupportedLanguages.
Proof.
  intros w1 w2.
  split; [reflexivity|]. split; [reflexivity|]. split; [reflexivity|].
  split; [rewrite getSupportedLanguages_value; simpl; nodup_by_discriminate|].
  split; [rewrite getSupportedLanguages_value; simpl; nodup_by_discriminate|].
  split; [intros []; rewrite getSupportedLanguages_value; simpl; tauto|].
  split.
  { unfold getSupportedLanguages.
    eapply perm_trans;
      [|apply Permutation_map; apply Array_sort_perm].
    rewrite map_map. simpl. apply Permutation_refl. }
  split.
  { intros [c n]. rewrite getSupportedLanguages_value. simpl. split.
    - intros H.
      repeat (destruct H as [H|H]; [injection H as <- <-; tauto|]). contradiction.
    - intros H.
      repeat (destruct H as [H|H]; [injection H as <- <-; tauto|]). contradiction. }
  split.
  - rewrite getSupportedLanguages_value.
    repeat (constructor; [|repeat (constructor; [vm_compute; discriminate|])]);
      repeat constructor.
  - rewrite getSupportedLanguages_value.
    repeat (constructor; [|repeat (constructor; [vm_compute; reflexivity|])]);
      repeat constructor.
Qed.

End Languages.

(** ** Storage paths of uploads *)

Lemma string_of_uint_no_underscore :
  forall d, contains_char "_" (NilEmpty.string_of_uint d) = false.
Proof. induction d; simpl; auto. Qed.

Lemma Number_toString_no_underscore :
  forall n, contains_char "_" (Number_toString n) = false.
Proof.
  intros n. unfold Number_toString, NilZero.string_of_int, NilZero.string_of_uint.
  destruct (Z.to_int n) as [d|d]; destruct d; simpl;
    try reflexivity; apply string_of_uint_no_underscore.
Qed.

Lemma Number_toString_inj :
  forall a b, Number_toString a = Number_toString b -> a = b.
Proof.
  intros a b H. unfold Number_toString in H.
  apply DecimalZ.to_int_inj.
  assert (P : forall n, NilZero.int_of_string (NilZero.string_of_int (Z.to_int n))
                        = Some (Z.to_int n)).
  { intros n. apply NilZero.isi; destruct n; simpl; try discriminate;
      intros [= E]; exact (DecimalPos.Unsigned.to_uint_nonnil _ E). }
  assert (E : Some (Z.to_int a) = Some (Z.to_int b)).
  { rewrite <- (P a), <- (P b), H. reflexivity. }
  injection E as E. exact E.
Qed.

(** Two texts cut at their first underscore agree part by part. *)
Lemma split_at_first_underscore :
  forall s1 s2 r1 r2,
    contains_char "_" s1 = false -> contains_char "_" s2 = false ->
    (s1 ++ String "_" r1)%string = (s2 ++ String "_" r2)%string ->
    s1 = s2 /\ r1 = r2.
Proof.
  induction s1 as [|a s1 IH]; intros [|b s2] r1 r2 H1 H2 E; simpl in *.
  - injection E as E. split; [reflexivity | exact E].
  - injection E as Ea E. subst b. rewrite Ascii.eqb_refl in H2. discriminate.
  - injection E as Ea E. subst a. rewrite Ascii.eqb_refl in H1. discriminate.
  - injection E as Ea E. subst b.
    apply orb_false_iff in H1. apply orb_false_iff in H2.
    destruct (IH s2 r1 r2 (proj2 H1) (proj2 H2) E) as [-> ->].
    split; reflexivity.
Qed.

Lemma length_append :
  forall s t, String.length (s ++ t)%string = (String.length s + String.length t)%nat.
Proof. induction s as [|a s IH]; intros t; simpl; [reflexivity | rewrite IH; reflexivity]. Qed.

Lemma append_inv_tail :
  forall s1 s2 t, (s1 ++ t)%string = (s2 ++ t)%string -> s1 = s2.
Proof.
  induction s1 as [|a s1 IH]; intros [|b s2] t E; simpl in *.
  - reflexivity.
  - exfalso. apply (f_equal String.length) in E. simpl in E.
    rewrite length_append in E. lia.
  - exfalso. apply (f_equal String.length) in E. simpl in E.
    rewrite length_append in E. lia.
  - injection E as -> E. f_equal. exact (IH s2 t E).
Qed.

(** For one file name the path determines the timestamp and the token. *)
Lemma filePath_inj :
  forall t1 t2 r1 r2 filename,
    filePath t1 r1 filename = filePath t2 r2 filename ->
    t1 = t2 /\ randomId r1 = randomId r2.
Proof.
  intros t1 t2 r1 r2 filename E. unfold filePath in E.
  simpl in E. injection E as E.
  apply split_at_first_underscore in E;
    try apply Number_toString_no_underscore.
  destruct E as [Et Er]. split.
  - apply Number_toString_inj. exact Et.
  - apply append_inv_tail in Er. exact Er.
Qed.

(** For one file name, two uploads get the same path exactly when they
    read the same millisecond and draw the same six-character token. *)
Theorem same_name_paths_collide_iff :
  forall (t1 t2 : Z) (r1 r2 filename : string),
    filePath t1 r1 filename = filePath t2 r2 filename
    <-> t1 = t2 /\ randomId r1 = randomId r2.
Proof.
  intros t1 t2 r1 r2 filename. split.
  - apply filePath_inj.
  - intros [-> E]. unfold filePath. rewrite E. reflexivity.
Qed.

(** * The theorems at concrete inputs *)

(** The examples below run on [example_runtime]. *)

Lemma one_job_db_wf : db_wf one_job_db.
Proof.
  unfold db_wf. simpl. repeat split.
  - constructor; [intros [] | constructor].
  - constructor; [simpl; lia | constructor].
  - constructor; [reflexivity | constructor].
  - apply Permutation_refl.
Qed.

Lemma initial_world_wf : db_wf (db initial_world).
Proof. exact db_wf_empty. Qed.

Lemma detected_world_wf : db_wf (db detected_world).
Proof. apply db_wf_run, db_wf_empty. Qed.

Lemma two_job_db_wf : db_wf two_job_db.
Proof. apply db_wf_run, db_wf_empty. Qed.

Lemma two_job_db_after_update_wf : db_wf two_job_db_after_update.
Proof. apply db_wf_run, db_wf_empty. Qed.

(** C1, as stated, fails: the schema accepts an update of the existing
    job 1 whose transcript is the text U+0000; PostgreSQL refuses the
    statement, the handler throws, the router answers
    INTERNAL_SERVER_ERROR, and the transcript is not changed. *)
Lemma update_with_nul_text_is_refused :
  rows one_job_db = [one_job] /\ id one_job = update_id nul_update
  /\ updateTranslationJobInputSchema
       (JsObject [ ("id", JsNumber 1);
                   ("transcript", JsString (String NUL EmptyString)) ])
     = Ok nul_update
  /\ updateTranslationJob nul_update 2000 one_job_db
     = (Err (PgThrown invalid_byte_sequence), one_job_db)
  /\ proc_updateTranslationJob
       (JsObject [ ("id", JsNumber 1);
                   ("transcript", JsString (String NUL EmptyString)) ])
       2000 {| db := one_job_db; storage := fs_initial |}
     = (Err (INTERNAL_SERVER_ERROR (PgThrown invalid_byte_sequence)),
        {| db := one_job_db; storage := fs_initial |}).
Proof. repeat split. Qed.

Lemma update_changes_supplied_fields_only_witness :
  exists j' : TranslationJob,
    fst (updateTranslationJob sample_update 2000 one_job_db) = Ok (Some j')
    /\ getTranslationJob {| get_id := 1 |}
         (snd (updateTranslationJob sample_update 2000 one_job_db)) = Ok (Some j')
    /\ status j' = processing /\ transcript j' = None
    /\ error_message j' = Some "x"
    /\ detected_language j' = None /\ translated_file_path j' = None
    /\ updated_at j' = 2000 /\ created_at j' = 1000.
Proof.
  destruct (proj1 (update_changes_supplied_fields_only one_job_db sample_update 2000
                     one_job one_job_db_wf (or_introl eq_refl) eq_refl) eq_refl)
    as (j' & Hret & Hget & Hdl & Hst & Htf & Htr & Htt & Hem & Hup & Hfix & _).
  exists j'. simpl in *.
  destruct Hfix as (_ & _ & _ & _ & Hcr).
  repeat split; assumption.
Defined.

(** C2, as stated, fails: the creation input whose file name is U+0000
    followed by [b.mp4] is valid (the name is not empty), yet no job is
    returned: PostgreSQL refuses the insert, the router answers
    INTERNAL_SERVER_ERROR, and the table stays empty. *)
Lemma creation_with_nul_filename_is_refused :
  createTranslationJobInputSchema (JsObject nul_create_props)
  = Ok {| create_original_filename := String NUL "b.mp4";
          create_original_file_path := "/uploads/b.mp4";
          create_target_language := es |}
  /\ proc_createTranslationJob (JsObject nul_create_props) 1000 initial_world
     = (Err (INTERNAL_SERVER_ERROR (PgThrown invalid_byte_sequence)), initial_world).
Proof. split; reflexivity. Qed.

Lemma create_returns_pending_job_witness :
  exists j : TranslationJob,
    fst (proc_createTranslationJob (JsObject valid_create_props) 1000 initial_world)
    = Ok (Some j)
    /\ status j = pending /\ detected_language j = None
    /\ created_at j = updated_at j.
Proof.
  destruct (create_returns_pending_job initial_world 1000 valid_create_props
              "clip.mp4" "/uploads/clip.mp4" "es")
    as (j & Hret & _ & _ & _ & _ & _ & Hst & Hdl & _ & _ & _ & _ & Hat);
    try reflexivity; try discriminate.
  - simpl. tauto.
  - exists j. repeat split; assumption.
Defined.

(** C3, as stated, fails: no job has the id 2147483648, and yet the
    lookup and the update of that id are not answered with the absent
    value: the id is no 32-bit integer, PostgreSQL refuses both
    statements, and the router answers INTERNAL_SERVER_ERROR. *)
Lemma out_of_range_id_is_an_error :
  map id (rows (db detected_world)) = [1]
  /\ proc_getTranslationJob (JsObject [("id", JsNumber 2147483648)]) detected_world
     = (Err (INTERNAL_SERVER_ERROR (PgThrown numeric_value_out_of_range)),
        detected_world)
  /\ proc_updateTranslationJob
       (JsObject [("id", JsNumber 2147483648); ("status", JsString "completed")])
       2000 detected_world
     = (Err (INTERNAL_SERVER_ERROR (PgThrown numeric_value_out_of_range)),
        detected_world).
Proof. repeat split. Qed.

Lemma missing_id_is_not_found_witness :
  proc_getTranslationJob (JsObject [("id", JsNumber 99999)]) detected_world
  = (Ok None, detected_world)
  /\ proc_updateTranslationJob
       (JsObject [("id", JsNumber 99999); ("status", JsString "completed")])
       2000 detected_world
     = (Ok None, detected_world).
Proof.
  destruct (missing_id_is_not_found detected_world 99999
              {| update_id := 99999;
                 update_detected_language := None;
                 update_status := Some completed;
                 update_translated_file_path := None;
                 update_transcript := None;
                 update_translated_transcript := None;
                 update_error_message := None |}
              2000
              (JsObject [("id", JsNumber 99999)])
              (JsObject [("id", JsNumber 99999); ("status", JsString "completed")])
              detected_world_wf)
    as (_ & Hget & Hupd & _); try reflexivity.
  - intros r Hr. vm_compute in Hr. destruct Hr as [<-|[]]. simpl. lia.
  - split; [exact (proj2 (Hget eq_refl)) | exact (proj2 (Hupd eq_refl eq_refl))].
Defined.

(** C4, as stated, fails: two jobs are created with the same
    [created_at] and are listed in insertion order; after job 1 has been
    set to processing the listing shows job 2 before job 1, although
    their [created_at] are still equal and job 1 was inserted first. *)
Lemma listing_reorders_ties_after_update :
  (exists jobs, getTranslationJobs two_job_db = Ok jobs /\ map id jobs = [1; 2])
  /\ map id (rows two_job_db_after_update) = [1; 2]
  /\ map created_at (rows two_job_db_after_update) = [1000; 1000]
  /\ exists jobs,
       getTranslationJobs two_job_db_after_update = Ok jobs
       /\ map id jobs = [2; 1]
       /\ map created_at jobs = [1000; 1000].
Proof.
  split; [eexists; split; reflexivity|].
  split; [reflexivity|]. split; [reflexivity|].
  eexists. repeat split.
Qed.

Lemma list_is_sorted_permutation_witness :
  exists jobs : list TranslationJob,
    getTranslationJobs two_job_db_after_update = Ok jobs
    /\ List.length jobs = 2%nat
    /\ StronglySorted newest_first jobs.
Proof.
  destruct (list_is_sorted_permutation
              {| db := two_job_db_after_update; storage := fs_initial |}
              two_job_db_after_update_wf)
    as (jobs & _ & Hget & _ & Hlen & _ & Hs & _).
  exists jobs. split; [exact Hget|]. split; [exact Hlen | exact Hs].
Defined.

(** C5. Two uploads of ["same-name.mp4"] read the same millisecond and
    draw random numbers that agree in their first six base-36 digits:
    both are answered with a job, the two jobs have different ids and one
    and the same storage path, and one file is left where two were
    written. *)
Theorem colliding_uploads_share_path :
  exists j1 j2 : TranslationJob,
    fst (upload_each colliding_uploads initial_world) = [Ok (Some j1); Ok (Some j2)]
    /\ id j1 <> id j2
    /\ original_file_path j1 = original_file_path j2
    /\ map fst (storage (snd (upload_each colliding_uploads initial_world)))
       = ["./storage/uploads/videos/1700000000000_k3j9x2_same-name.mp4"].
Proof.
  eexists. eexists. split; [reflexivity|]. simpl.
  split; [lia|]. split; reflexivity.
Qed.



Lemma create_rejects_invalid_input_witness :
  exists issues,
    proc_createTranslationJob (JsObject invalid_create_props) 1000 detected_world
    = (Err (BAD_REQUEST issues), detected_world).
Proof.
  apply create_rejects_invalid_input. left. reflexivity.
Defined.

Lemma detected_language_never_cleared_witness :
  exists j' l',
    getTranslationJob {| get_id := 1 |} (db (run later_calls detected_world))
    = Ok (Some j')
    /\ detected_language j' = Some l'.
Proof.
  exact (proj1 (detected_language_never_cleared later_calls detected_world 1
                  detected_job en eq_refl eq_refl)).
Defined.

(** * Scenarios *)

(** The nullable fields of an accepted update: left out, null, or a text. *)
Lemma z_optional_nullable_string_cases :
  forall v u,
    z_optional (z_nullable z_string) v = Ok u ->
    (v = JsUndefined /\ u = None)
    \/ (v = JsNull /\ u = Some None)
    \/ (exists s, v = JsString s /\ u = Some (Some s)).
Proof.
  intros v u. destruct v; simpl; intros H; try discriminate H;
    injection H as <-; [left | right; left | right; right; eexists]; split; reflexivity.
Qed.

(** Upload, then the two updates of a successful translation, read back
    after each step. *)
Example scenario_completed :
  let upload :=
    call_uploadVideo 1700000000000 "0.k3j9x2abcde" 1700000000002
      (JsObject [ ("filename", JsString "clip.mp4");
                  ("file_data", JsString "AAAA");
                  ("target_language", JsString "es") ]) in
  let w1 := exec upload initial_world in
  let w2 := exec (call_updateTranslationJob 1700000000500
                    (JsObject [ ("id", JsNumber 1);
                                ("status", JsString "processing") ])) w1 in
  let w3 := exec (call_updateTranslationJob 1700000000900
                    (JsObject [ ("id", JsNumber 1);
                                ("status", JsString "completed");
                                ("translated_file_path", JsString "/out/clip_es.mp4");
                                ("transcript", JsString "Hi");
                                ("translated_transcript", JsString "Hola") ])) w2 in
  let read w := first_row (rows (db w)) in
  option_map status (read w1) = Some pending
  /\ option_map detected_language (read w1) = Some None
  /\ option_map original_file_path (read w1)
     = Some "/uploads/videos/1700000000000_k3j9x2_clip.mp4"
  /\ map fst (storage w1)
     = ["./storage/uploads/videos/1700000000000_k3j9x2_clip.mp4"]
  /\ option_map status (read w2) = Some processing
  /\ option_map updated_at (read w2) = Some 1700000000500
  /\ option_map status (read w3) = Some completed
  /\ option_map translated_file_path (read w3) = Some (Some "/out/clip_es.mp4")
  /\ option_map transcript (read w3) = Some (Some "Hi")
  /\ option_map translated_transcript (read w3) = Some (Some "Hola")
  /\ option_map created_at (read w3) = Some 1700000000002.
Proof. repeat split. Qed.

(** A failure report on a pending job. *)
Example scenario_failed :
  fst (proc_updateTranslationJob
         (JsObject [ ("id", JsNumber 1); ("status", JsString "failed");
                     ("error_message", JsString "unsupported codec") ])
         2000 {| db := one_job_db; storage := fs_initial |})
  = Ok (Some {| id := 1;
                original_filename := "clip.mp4";
                original_file_path := "/uploads/clip.mp4";
                detected_language := None;
                target_language := es;
                status := failed;
                translated_file_path := None;
                transcript := None;
                translated_transcript := None;
                error_message := Some "unsupported codec";
                created_at := 1000;
                updated_at := 2000 |}).
Proof. reflexivity. Qed.

(** Fields set and then cleared with explicit nulls, through the router. *)
Example scenario_null_clears :
  let w := run later_calls detected_world in
  exists j, getTranslationJob {| get_id := 1 |} (db w) = Ok (Some j)
            /\ transcript j = None /\ error_message j = None
            /\ status j = processing /\ detected_language j = Some en
            /\ List.length (rows (db w)) = 2%nat.
Proof. eexists. repeat split. Qed.

(** Inputs the schemas refuse. *)
Example scenario_rejected :
  createTranslationJobInputSchema (JsObject invalid_create_props)
  = Err [("original_filename", too_small "Filename is required")]
  /\ createTranslationJobInputSchema
       (JsObject [ ("original_filename", JsString "a.mp4");
                   ("original_file_path", JsString "");
                   ("target_language", JsString "xx") ])
     = Err [ ("original_file_path", too_small "File path is required");
             ("target_language", invalid_enum_value) ]
  /\ updateTranslationJobInputSchema
       (JsObject [ ("id", JsNumber 1); ("detected_language", JsNull) ])
     = Err [("detected_language", invalid_type)]
  /\ createTranslationJobInputSchema JsNull = Err [("", invalid_type)].
Proof. repeat split. Qed.

(** A session in which one creation is refused by the schema and one by
    PostgreSQL: the two accepted calls get the ids 1 and 2, and nothing
    else is in the table. *)
Example session_outcome :
  map id (rows (db (run session_calls initial_world))) = [1; 2]
  /\ map status (rows (db (run session_calls initial_world))) = [pending; failed]
  /\ next_id (db (run session_calls initial_world)) = 3
  /\ jobs_created session_calls initial_world = 2%nat.
Proof. repeat split. Qed.

(** * Further properties of the handlers *)

Section Further.
Context {runtime : Runtime}.

(** ** Reading a job back *)

Lemma getTranslationJob_found :
  forall k d j,
    getTranslationJob {| get_id := k |} d = Ok (Some j) -> In j (rows d) /\ id j = k.
Proof.
  intros k d j H. pose proof (getTranslationJob_in_range _ _ _ H) as Hk.
  rewrite getTranslationJob_first_row in H by exact Hk.
  destruct (filter (fun r => id r =? k) (rows d)) as [|r rest] eqn:F; [discriminate|].
  injection H as <-.
  assert (H : In r (filter (fun r => id r =? k) (rows d))) by (rewrite F; left; reflexivity).
  apply filter_In in H. destruct H as [Hin Hid].
  split; [exact Hin | apply Z.eqb_eq; exact Hid].
Qed.

(** The lookup answers with a row of the table that carries the id asked
    for, unchanged; it answers with the absent value exactly when the id
    is a 32-bit integer that no row carries; and it throws, with
    PostgreSQL's out-of-range error, exactly when the id is no 32-bit
    integer. *)
Theorem getTranslationJob_characterisation :
  forall (d : Db) (k : Z),
    (forall j, getTranslationJob {| get_id := k |} d = Ok (Some j) ->
               In j (rows d) /\ id j = k)
    /\ (getTranslationJob {| get_id := k |} d = Ok None <->
        int4_ok k = true /\ forall r, In r (rows d) -> id r <> k)
    /\ (forall r, In r (rows d) -> id r = k -> int4_ok k = true ->
                  exists j, getTranslationJob {| get_id := k |} d = Ok (Some j))
    /\ (forall e, getTranslationJob {| get_id := k |} d = Err e <->
                  int4_ok k = false /\ e = PgThrown numeric_value_out_of_range).
Proof.
  intros d k. split; [apply getTranslationJob_found|]. split; [split|split].
  - intros Hnone. pose proof (getTranslationJob_in_range _ _ _ Hnone) as Hk.
    split; [exact Hk|]. intros r Hr Hid.
    rewrite getTranslationJob_first_row in Hnone by exact Hk.
    assert (H : In r (filter (fun r => id r =? k) (rows d))).
    { apply filter_In. split; [exact Hr | apply Z.eqb_eq; exact Hid]. }
    destruct (filter (fun r => id r =? k) (rows d)); [contradiction | discriminate].
  - intros [Hk Hno]. rewrite getTranslationJob_first_row by exact Hk.
    rewrite (filter_absent _ _ Hno). reflexivity.
  - intros r Hr Hid Hk. rewrite getTranslationJob_first_row by exact Hk.
    assert (H : In r (filter (fun r => id r =? k) (rows d))).
    { apply filter_In. split; [exact Hr | apply Z.eqb_eq; exact Hid]. }
    destruct (filter (fun r => id r =? k) (rows d)) as [|j rest]; [contradiction|].
    exists j. reflexivity.
  - intros e. destruct (int4_ok k) eqn:Hk.
    + rewrite getTranslationJob_first_row by exact Hk.
      split; [discriminate | intros [H _]; discriminate H].
    + rewrite getTranslationJob_out_of_range by exact Hk. split.
      * intros [= <-]. split; reflexivity.
      * intros [_ ->]. reflexivity.
Qed.

Lemma db_insert_then_get :
  forall v now d row,
    db_wf d -> fst (db_insert v now d) = Ok [row] ->
    getTranslationJob {| get_id := id row |} (snd (db_insert v now d)) = Ok (Some row)
    /\ rows (snd (db_insert v now d)) = (rows d ++ [row])%list
    /\ forall k, k <> id row ->
         getTranslationJob {| get_id := k |} (snd (db_insert v now d))
         = getTranslationJob {| get_id := k |} d.
Proof.
  intros v now d row (_ & Hlt & _ & _) Hrow.
  destruct (db_insert_cases v now d) as [[e E] | (_ & Hseq & E)];
    rewrite E in *; [discriminate|].
  simpl in Hrow. injection Hrow as <-. cbn [snd rows id inserted_row].
  split; [|split; [reflexivity|]].
  - rewrite getTranslationJob_first_row by exact Hseq. cbn [rows].
    rewrite filter_app, filter_absent.
    + simpl. rewrite Z.eqb_refl. reflexivity.
    + intros r Hr. rewrite Forall_forall in Hlt. specialize (Hlt r Hr). lia.
  - intros k Hk. destruct (int4_ok k) eqn:Hin4.
    + rewrite !getTranslationJob_first_row by exact Hin4. cbn [rows].
      rewrite filter_app. simpl.
      destruct (Z.eqb_spec (next_id d) k) as [E'|_]; [congruence|].
      rewrite app_nil_r. reflexivity.
    + rewrite !getTranslationJob_out_of_range by exact Hin4. reflexivity.
Qed.

Lemma getTranslationJobInputSchema_id :
  forall k, getTranslationJobInputSchema (JsObject [("id", JsNumber k)])
            = Ok {| get_id := k |}.
Proof. reflexivity. Qed.

(** What a creation answers is what its insert returned. *)
Lemma proc_createTranslationJob_answer :
  forall w now raw j,
    fst (proc_createTranslationJob raw now w) = Ok (Some j) ->
    exists input,
      createTranslationJobInputSchema raw = Ok input
      /\ fst (db_insert (create_values input) now (db w)) = Ok [j]
      /\ db (snd (proc_createTranslationJob raw now w))
         = snd (db_insert (create_values input) now (db w)).
Proof.
  intros w now raw j. unfold proc_createTranslationJob.
  destruct (createTranslationJobInputSchema raw) as [input|issues]; [|discriminate].
  unfold createTranslationJob.
  destruct (db_insert_cases (create_values input) now (db w)) as [[e E] | (_ & _ & E)];
    rewrite E; simpl; [discriminate|].
  intros [= <-]. exists input. rewrite E. repeat split.
Qed.

(** A job that [createTranslationJob] returns can be read back under its
    id and is then the same record; every other id reads as before. *)
Theorem create_then_get :
  forall (w : World) (now : Z) (raw : JsValue) (j : TranslationJob),
    db_wf (db w) ->
    fst (proc_createTranslationJob raw now w) = Ok (Some j) ->
    proc_getTranslationJob (JsObject [("id", JsNumber (id j))])
      (snd (proc_createTranslationJob raw now w))
    = (Ok (Some j), snd (proc_createTranslationJob raw now w))
    /\ forall k, k <> id j ->
         getTranslationJob {| get_id := k |}
           (db (snd (proc_createTranslationJob raw now w)))
         = getTranslationJob {| get_id := k |} (db w).
Proof.
  intros w now raw j Hwf Hj.
  destruct (proc_createTranslationJob_answer w now raw j Hj) as (input & _ & Hrow & Hdb).
  destruct (db_insert_then_get _ now (db w) j Hwf Hrow) as (Hget & _ & Hother).
  rewrite <- Hdb in Hget, Hother. split; [|exact Hother].
  unfold proc_getTranslationJob.
  rewrite getTranslationJobInputSchema_id, Hget. reflexivity.
Qed.

(** ** Ids *)

Lemma ids_up_to_succ :
  forall n, ids_up_to (S n) = (ids_up_to n ++ [Z.of_nat n + 1])%list.
Proof.
  intros n. unfold ids_up_to. rewrite seq_S, map_app. simpl.
  do 2 f_equal. lia.
Qed.

Lemma ids_sequential_exec :
  forall c w, ids_sequential (db w) -> ids_sequential (db (exec c w)).
Proof.
  intros c w [Hids Hnext]. unfold ids_sequential.
  destruct (exec_cases c w) as [-> | [(v & ->) | (input & ->)]].
  - split; assumption.
  - destruct (db_insert_cases v (call_time c) (db w)) as [[e ->] | (_ & _ & ->)];
      [split; assumption|].
    simpl. rewrite map_app, length_app. simpl.
    replace (List.length (rows (db w)) + 1)%nat with (S (List.length (rows (db w))))
      by lia.
    rewrite ids_up_to_succ, Hids, Hnext. split; [reflexivity | lia].
  - destruct (updateTranslationJob_cases input (call_time c) (db w))
      as [[e ->] | (_ & _ & ->)]; [split; assumption|].
    simpl.
    rewrite (map_id_touch _ _ (set_updateData_id input (call_time c))), length_map.
    split; assumption.
Qed.

(** After any history of calls from the empty table the ids in the table
    are 1, 2, ..., n in insertion order and the sequence stands at n + 1:
    an id is given once, is never given again and never changes. *)
Theorem ids_are_sequential :
  forall calls : list Call,
    map id (rows (db (run calls initial_world)))
    = ids_up_to (List.length (rows (db (run calls initial_world))))
    /\ next_id (db (run calls initial_world))
       = Z.of_nat (List.length (rows (db (run calls initial_world)))) + 1
    /\ db_wf (db (run calls initial_world)).
Proof.
  intros calls.
  assert (H : forall w, ids_sequential (db w) -> ids_sequential (db (run calls w))).
  { induction calls as [|c calls IH]; intros w Hw; [exact Hw|].
    rewrite run_cons. apply IH, ids_sequential_exec, Hw. }
  destruct (H initial_world) as [H1 H2]; [split; reflexivity|].
  split; [exact H1|]. split; [exact H2|].
  apply db_wf_run, db_wf_empty.
Qed.

(** ** What no call changes *)

Lemma same_identity_exec :
  forall k c w j,
    getTranslationJob {| get_id := k |} (db w) = Ok (Some j) ->
    exists j', getTranslationJob {| get_id := k |} (db (exec c w)) = Ok (Some j')
               /\ same_identity j j'.
Proof.
  intros k c w j Hget.
  assert (Hrefl : same_identity j j) by (repeat split).
  pose proof (getTranslationJob_in_range _ _ _ Hget) as Hk.
  destruct (exec_cases c w) as [-> | [(v & ->) | (input & ->)]].
  - exists j. split; assumption.
  - destruct (db_insert_cases v (call_time c) (db w)) as [[e ->] | (_ & _ & ->)];
      [exists j; split; assumption|].
    exists j. split; [|exact Hrefl].
    rewrite getTranslationJob_first_row in * by exact Hk. simpl. rewrite filter_app.
    destruct (filter (fun r => id r =? k) (rows (db w))); [discriminate | exact Hget].
  - destruct (updateTranslationJob_cases input (call_time c) (db w))
      as [[e ->] | (_ & _ & ->)]; [exists j; split; assumption|].
    rewrite getTranslationJob_first_row in Hget by exact Hk.
    destruct (Z.eq_dec k (update_id input)) as [->|Hne].
    + destruct (filter (fun r => id r =? update_id input) (rows (db w)))
        as [|r rest] eqn:F; [discriminate|].
      injection Hget as ->.
      exists (set_updateData input (call_time c) j).
      rewrite getTranslationJob_first_row by exact Hk. simpl.
      rewrite (filter_touched_same _ _ (set_updateData_id input (call_time c))), F.
      split; [reflexivity | repeat split].
    + exists j. split; [|exact Hrefl].
      rewrite getTranslationJob_first_row by exact Hk. simpl.
      rewrite (filter_touched_other _ _ (set_updateData_id input (call_time c)))
        by exact Hne.
      exact Hget.
Qed.

(** A job that can be read stays readable under the same id through
    every history of calls, and keeps its id, file name, file path, target
    language and creation time: no call deletes a job or rewrites these
    fields. *)
Theorem jobs_keep_their_identity :
  forall (calls : list Call) (w : World) (k : Z) (j : TranslationJob),
    getTranslationJob {| get_id := k |} (db w) = Ok (Some j) ->
    exists j' : TranslationJob,
      getTranslationJob {| get_id := k |} (db (run calls w)) = Ok (Some j')
      /\ same_identity j j'.
Proof.
  induction calls as [|c calls IH]; intros w k j Hget.
  - exists j. split; [exact Hget | repeat split].
  - rewrite run_cons.
    destruct (same_identity_exec k c w j Hget) as (j1 & Hget1 & H1).
    destruct (IH (exec c w) k j1 Hget1) as (j' & Hget' & H').
    exists j'. split; [exact Hget'|].
    destruct H1 as (A1 & A2 & A3 & A4 & A5), H' as (B1 & B2 & B3 & B4 & B5).
    repeat split; congruence.
Qed.

(** ** Uploads *)

Lemma z_string_min1_inv :
  forall message v s,
    z_string_min1 message v = Ok s -> v = JsString s /\ s <> "".
Proof.
  intros message v s. unfold z_string_min1. destruct v; try discriminate.
  destruct s0 as [|c s0]; simpl; [discriminate|].
  intros [= <-]. split; [reflexivity | discriminate].
Qed.

Lemma uploadVideoInputSchema_accepts :
  forall o f data l,
    get_prop "filename" o = JsString f -> f <> "" ->
    get_prop "file_data" o = JsString data ->
    get_prop "target_language" o = JsString (language_code l) ->
    uploadVideoInputSchema (JsObject o)
    = Ok {| upload_filename := f; upload_file_data := data;
            upload_target_language := l |}.
Proof.
  intros o f data l Hf Hfne Hd Hl. unfold uploadVideoInputSchema, field.
  rewrite Hf, Hd, Hl, z_string_min1_nonempty, supportedLanguagesSchema_code
    by assumption.
  reflexivity.
Qed.

Lemma uploadVideoInputSchema_inv :
  forall o input,
    uploadVideoInputSchema (JsObject o) = Ok input ->
    get_prop "filename" o = JsString (upload_filename input)
    /\ upload_filename input <> ""
    /\ get_prop "file_data" o = JsString (upload_file_data input)
    /\ get_prop "target_language" o
       = JsString (language_code (upload_target_language input)).
Proof.
  intros o input. unfold uploadVideoInputSchema, field.
  destruct (z_string_min1 _ (get_prop "filename" o)) as [f|] eqn:Ef;
    destruct (z_string (get_prop "file_data" o)) as [data|] eqn:Ed;
    destruct (supportedLanguagesSchema (get_prop "target_language" o)) as [l|] eqn:El;
    simpl; try discriminate.
  intros [= <-]. simpl.
  apply z_string_min1_inv in Ef. destruct Ef as [Ef Hne].
  apply supportedLanguagesSchema_inv in El.
  unfold z_string in Ed. destruct (get_prop "file_data" o); try discriminate.
  injection Ed as ->. repeat split; assumption.
Qed.

(** What the upload handler does with an input the schema let through:
    it throws and leaves the table alone, or both file operations and the
    insert succeed and it returns the row it appended. *)
Lemma uploadVideo_cases :
  forall (input : UploadVideoInput) (timestamp : Z) (random36 : string) (now : Z)
         (w : World) (path : string),
    path = filePath timestamp random36 (upload_filename input) ->
    (exists e,
        fst (uploadVideo input timestamp random36 now w) = Err e
        /\ db (snd (uploadVideo input timestamp random36 now w)) = db w)
    \/ (exists st st',
          mkdir_recursive (dirname (fullPath path)) (storage w) = (None, st)
          /\ writeFile (fullPath path) (Buffer_from_base64 (upload_file_data input)) st
             = (None, st')
          /\ fst (db_insert (upload_values input path) now (db w))
             = Ok [inserted_row (upload_values input path) (next_id (db w)) now]
          /\ uploadVideo input timestamp random36 now w
             = (Ok (Some (inserted_row (upload_values input path) (next_id (db w)) now)),
                {| db := snd (db_insert (upload_values input path) now (db w));
                   storage := st' |})).
Proof.
  intros input timestamp random36 now w path Epath. unfold uploadVideo.
  cbv zeta. rewrite <- Epath.
  destruct (mkdir_recursive (dirname (fullPath path)) (storage w)) as [[e|] st] eqn:M.
  - left. eexists. split; reflexivity.
  - destruct (writeFile (fullPath path) (Buffer_from_base64 (upload_file_data input)) st)
      as [[e|] st'] eqn:Wf.
    + left. eexists. split; reflexivity.
    + destruct (db_insert_cases (upload_values input path) now (db w))
        as [[e E] | (_ & _ & E)]; rewrite E.
      * left. eexists. split; reflexivity.
      * right. exists st, st'. split; [reflexivity|]. split; [exact Wf|].
        split; reflexivity.
Qed.

Lemma proc_uploadVideo_outcome :
  forall raw timestamp random36 now w,
    (exists j,
        fst (proc_uploadVideo raw timestamp random36 now w) = Ok (Some j)
        /\ rows (db (snd (proc_uploadVideo raw timestamp random36 now w)))
           = (rows (db w) ++ [j])%list
        /\ created_at j = now)
    \/ (exists e,
           fst (proc_uploadVideo raw timestamp random36 now w) = Err e
           /\ db (snd (proc_uploadVideo raw timestamp random36 now w)) = db w).
Proof.
  intros raw timestamp random36 now w. unfold proc_uploadVideo.
  destruct (uploadVideoInputSchema raw) as [input|issues];
    [|right; eexists; split; reflexivity].
  destruct (uploadVideo_cases input timestamp random36 now w _ eq_refl)
    as [(e & Hret & Hdb) | (st & st' & _ & _ & Hins & E)].
  - right. destruct (uploadVideo input timestamp random36 now w) as [job w'].
    simpl in *. subst job. eexists. split; [reflexivity | exact Hdb].
  - left. rewrite E. eexists. cbn [fst snd respond db].
    split; [reflexivity|]. split; [|reflexivity].
    destruct (db_insert_cases
                (upload_values input (filePath timestamp random36 (upload_filename input)))
                now (db w)) as [[e E'] | (_ & _ & E')];
      rewrite E' in *; [discriminate Hins | reflexivity].
Qed.

(** An upload that is answered with a job was accepted by the schema,
    made the directory, wrote the decoded payload at the job's path, and
    appended the job as a new row: the job is pending, has no optional
    field set, carries the given file name and language and the generated
    path, and can be read back under its id. An upload that is answered
    with an error has added no row, and no upload is answered with the
    absent value. *)
Theorem upload_stores_file_and_job :
  forall (w : World) (timestamp : Z) (random36 : string) (now : Z) (raw : JsValue),
    db_wf (db w) ->
    (forall j : TranslationJob,
       fst (proc_uploadVideo raw timestamp random36 now w) = Ok (Some j) ->
       exists (input : UploadVideoInput) (st : FsState),
         uploadVideoInputSchema raw = Ok input
         /\ mkdir_recursive (dirname (fullPath (original_file_path j))) (storage w)
            = (None, st)
         /\ writeFile (fullPath (original_file_path j))
              (Buffer_from_base64 (upload_file_data input)) st
            = (None, storage (snd (proc_uploadVideo raw timestamp random36 now w)))
         /\ rows (db (snd (proc_uploadVideo raw timestamp random36 now w)))
            = (rows (db w) ++ [j])%list
         /\ getTranslationJob {| get_id := id j |}
              (db (snd (proc_uploadVideo raw timestamp random36 now w)))
            = Ok (Some j)
         /\ original_filename j = upload_filename input
         /\ original_file_path j = filePath timestamp random36 (upload_filename input)
         /\ target_language j = upload_target_language input
         /\ status j = pending
         /\ (detected_language j = None /\ translated_file_path j = None
             /\ transcript j = None /\ translated_transcript j = None
             /\ error_message j = None)
         /\ (created_at j = now /\ updated_at j = now))
    /\ (forall e, fst (proc_uploadVideo raw timestamp random36 now w) = Err e ->
                  db (snd (proc_uploadVideo raw timestamp random36 now w)) = db w)
    /\ fst (proc_uploadVideo raw timestamp random36 now w) <> Ok None.
Proof.
  intros w timestamp random36 now raw Hwf. unfold proc_uploadVideo.
  destruct (uploadVideoInputSchema raw) as [input|issues];
    [|split; [intros j H; discriminate H | split; [reflexivity | discriminate]]].
  remember (filePath timestamp random36 (upload_filename input)) as path eqn:Epath.
  destruct (uploadVideo_cases input timestamp random36 now w path Epath)
    as [(e & Hret & Hdb) | (st & st' & Hmk & Hwr & Hins & E)].
  - destruct (uploadVideo input timestamp random36 now w) as [job w'].
    cbn [fst snd] in *. subst job. cbn [respond].
    split; [intros j H; discriminate H|]. split; [intros; exact Hdb | discriminate].
  - rewrite E. cbn [fst snd respond db storage].
    destruct (db_insert_then_get _ now (db w) _ Hwf Hins) as (Hget & Hrows & _).
    split; [|split; [intros e H; discriminate H | discriminate]].
    intros j [= <-]. exists input, st.
    cbn [id original_filename original_file_path detected_language target_language
         status translated_file_path transcript translated_transcript error_message
         created_at updated_at inserted_row upload_values new_original_filename
         new_original_file_path new_detected_language new_target_language new_status
         new_translated_file_path new_transcript new_translated_transcript
         new_error_message or_null] in *.
    split; [reflexivity|]. split; [exact Hmk|]. split; [exact Hwr|].
    split; [exact Hrows|]. split; [exact Hget|].
    repeat split. exact Epath.
Qed.

Lemma upload_rejects_invalid :
  forall (raw : JsValue) (timestamp : Z) (random36 : string) (now : Z) (w : World),
    (forall o, raw = JsObject o ->
       get_prop "filename" o = JsString ""
       \/ (forall s, get_prop "filename" o <> JsString s)
       \/ (forall s, get_prop "file_data" o <> JsString s)
       \/ (forall l, get_prop "target_language" o <> JsString (language_code l))) ->
    exists issues,
      proc_uploadVideo raw timestamp random36 now w = (Err (BAD_REQUEST issues), w).
Proof.
  intros raw timestamp random36 now w Hraw. unfold proc_uploadVideo.
  destruct raw as [ | | b | n | s | o]; try (eexists; reflexivity).
  specialize (Hraw o eq_refl). rename Hraw into Hbad.
  destruct (uploadVideoInputSchema (JsObject o)) as [input|issues] eqn:E.
  - exfalso. apply uploadVideoInputSchema_inv in E.
    destruct E as (Hf & Hfne & Hd & Hl).
    destruct Hbad as [H|[H|[H|H]]].
    + rewrite Hf in H. injection H as H. contradiction.
    + exact (H _ Hf).
    + exact (H _ Hd).
    + exact (H _ Hl).
  - exists issues. reflexivity.
Qed.

(** An upload whose file name is missing, not a text or empty, whose
    payload is not a text, or whose target language is not one of the
    twelve codes is refused: no file is written and no row is inserted. *)
Theorem upload_rejects_invalid_input :
  forall (w : World) (timestamp : Z) (random36 : string) (now : Z)
         (o : list (string * JsValue)),
    get_prop "filename" o = JsString ""
    \/ (forall s, get_prop "filename" o <> JsString s)
    \/ (forall s, get_prop "file_data" o <> JsString s)
    \/ (forall l, get_prop "target_language" o <> JsString (language_code l)) ->
    exists issues,
      proc_uploadVideo (JsObject o) timestamp random36 now w
      = (Err (BAD_REQUEST issues), w).
Proof.
  intros w timestamp random36 now o Hbad.
  apply upload_rejects_invalid. intros o' [= <-]. exact Hbad.
Qed.

Lemma substring_length :
  forall s n m, String.length (substring n m s) = Nat.min m (String.length s - n).
Proof.
  induction s as [|c s IH]; intros n m.
  - destruct n, m; simpl; try reflexivity; lia.
  - destruct n as [|n].
    + destruct m as [|m]; simpl; [reflexivity|].
      rewrite IH. rewrite Nat.sub_0_r. reflexivity.
    + simpl. apply IH.
Qed.

(** The token of a path is made of the third to eighth character of the
    text of the random number: it has six characters when that text has
    at least eight, fewer when the text is shorter, and none when the text
    has no digit after the point. *)
Theorem randomId_length :
  forall random36 : string,
    String.length (randomId random36) = Nat.min 6 (String.length random36 - 2)
    /\ (String.length (randomId random36) <= 6)%nat
    /\ ((8 <= String.length random36)%nat -> String.length (randomId random36) = 6%nat)
    /\ ((String.length random36 <= 2)%nat -> randomId random36 = "").
Proof.
  intros r. unfold randomId. rewrite substring_length.
  split; [reflexivity|]. split; [lia|]. split; [lia|].
  intros Hshort.
  assert (L : String.length (substring 2 6 r) = 0%nat)
    by (rewrite substring_length; lia).
  destruct (substring 2 6 r); [reflexivity | simpl in L; discriminate].
Qed.

(** ** How many rows there are *)

Lemma rows_exec_length :
  forall c w,
    List.length (rows (db (exec c w)))
    = (List.length (rows (db w)) + (if creates_job c w then 1 else 0))%nat.
Proof.
  intros [timestamp random36 now raw | now raw | now raw] w;
    unfold creates_job, response; cbn [exec].
  - destruct (proc_uploadVideo_outcome raw timestamp random36 now w)
      as [(j & Hret & Hrows & _) | (e & Hret & Hdb)].
    + rewrite Hret, Hrows, length_app. reflexivity.
    + rewrite Hret, Hdb. lia.
  - unfold proc_createTranslationJob.
    destruct (createTranslationJobInputSchema raw) as [input|issues]; [|simpl; lia].
    unfold createTranslationJob.
    destruct (db_insert_cases (create_values input) now (db w))
      as [[e E] | (_ & _ & E)]; rewrite E; simpl; [lia|].
    rewrite length_app. reflexivity.
  - unfold proc_updateTranslationJob.
    destruct (updateTranslationJobInputSchema raw) as [input|issues]; [|simpl; lia].
    destruct (updateTranslationJob_cases input now (db w))
      as [[e E] | (_ & _ & E)]; rewrite E; simpl; [lia|].
    rewrite length_map. lia.
Qed.

(** The table grows by exactly one row for every upload or creation that
    is answered with a job, and by nothing else: updates, calls that the
    schema refuses, and calls during which the file system or PostgreSQL
    fails neither add nor remove rows. *)
Theorem table_grows_by_accepted_creations :
  forall (calls : list Call) (w : World),
    List.length (rows (db (run calls w)))
    = (List.length (rows (db w)) + jobs_created calls w)%nat.
Proof.
  induction calls as [|c calls IH]; intros w.
  - simpl. lia.
  - rewrite run_cons, IH, rows_exec_length. simpl. lia.
Qed.

(** ** Updates compose *)

Lemma set_updateData_idempotent :
  forall input now r,
    set_updateData input now (set_updateData input now r) = set_updateData input now r.
Proof.
  intros [k dl st tf tr tt em] now r.
  unfold set_updateData, apply_set, updateData, supplied. simpl.
  f_equal; match goal with |- context [match ?u with _ => _ end] => destruct u end;
    reflexivity.
Qed.

(** Sending the same update twice with the same time stamp gives the same
    answer and the same table as sending it once. *)
Theorem update_is_idempotent :
  forall (input : UpdateTranslationJobInput) (now : Z) (d : Db),
    updateTranslationJob input now (snd (updateTranslationJob input now d))
    = updateTranslationJob input now d.
Proof.
  intros input now d.
  destruct (updateTranslationJob_cases input now d) as [[e E] | (Hk & Hs & E)].
  - rewrite E. simpl. exact E.
  - rewrite E. cbn [snd].
    rewrite updateTranslationJob_accepted by assumption. cbn [rows next_id heap].
    rewrite (filter_touched_same _ _ (set_updateData_id input now)).
    rewrite move_to_end_twice, !map_map.
    assert (E1 : forall l,
               map (fun x => set_updateData input now (set_updateData input now x)) l
               = map (set_updateData input now) l).
    { intros l. apply map_ext. intros r. apply set_updateData_idempotent. }
    rewrite E1. f_equal. f_equal. apply map_ext. intros r.
    destruct (Z.eqb_spec (id r) (update_id input)) as [Hr|Hr].
    + simpl. rewrite Hr, Z.eqb_refl. apply set_updateData_idempotent.
    + destruct (Z.eqb_spec (id r) (update_id input)); [contradiction | reflexivity].
Qed.

Lemma touches_commute :
  forall (i1 i2 : UpdateTranslationJobInput) (n1 n2 : Z) (l : list TranslationJob),
    update_id i1 <> update_id i2 ->
    map (fun r => if id r =? update_id i2 then set_updateData i2 n2 r else r)
      (map (fun r => if id r =? update_id i1 then set_updateData i1 n1 r else r) l)
    = map (fun r => if id r =? update_id i1 then set_updateData i1 n1 r else r)
        (map (fun r => if id r =? update_id i2 then set_updateData i2 n2 r else r) l).
Proof.
  intros i1 i2 n1 n2 l Hne. rewrite !map_map. apply map_ext. intros r.
  destruct (Z.eqb_spec (id r) (update_id i1)) as [E1|E1];
    destruct (Z.eqb_spec (id r) (update_id i2)) as [E2|E2]; simpl.
  - congruence.
  - destruct (Z.eqb_spec (id r) (update_id i2)); [contradiction|].
    destruct (Z.eqb_spec (id r) (update_id i1)); [reflexivity | contradiction].
  - destruct (Z.eqb_spec (id r) (update_id i1)); [contradiction|].
    destruct (Z.eqb_spec (id r) (update_id i2)); [reflexivity | contradiction].
  - destruct (Z.eqb_spec (id r) (update_id i2)); [contradiction|].
    destruct (Z.eqb_spec (id r) (update_id i1)); [contradiction | reflexivity].
Qed.

(** Updates addressed to different jobs do not interfere: in either order
    they leave the same rows and the same sequence, so that every lookup
    answers the same, and each returns what it would return alone. What
    the order of the two updates does decide is the order in which a scan
    meets the rows, which holds the same ids either way. *)
Theorem updates_of_different_jobs_commute :
  forall (i1 i2 : UpdateTranslationJobInput) (n1 n2 : Z) (d : Db),
    update_id i1 <> update_id i2 ->
    rows (snd (updateTranslationJob i2 n2 (snd (updateTranslationJob i1 n1 d))))
    = rows (snd (updateTranslationJob i1 n1 (snd (updateTranslationJob i2 n2 d))))
    /\ next_id (snd (updateTranslationJob i2 n2 (snd (updateTranslationJob i1 n1 d))))
       = next_id (snd (updateTranslationJob i1 n1 (snd (updateTranslationJob i2 n2 d))))
    /\ Permutation
         (heap (snd (updateTranslationJob i2 n2 (snd (updateTranslationJob i1 n1 d)))))
         (heap (snd (updateTranslationJob i1 n1 (snd (updateTranslationJob i2 n2 d)))))
    /\ (forall k,
          getTranslationJob {| get_id := k |}
            (snd (updateTranslationJob i2 n2 (snd (updateTranslationJob i1 n1 d))))
          = getTranslationJob {| get_id := k |}
              (snd (updateTranslationJob i1 n1 (snd (updateTranslationJob i2 n2 d)))))
    /\ fst (updateTranslationJob i2 n2 (snd (updateTranslationJob i1 n1 d)))
       = fst (updateTranslationJob i2 n2 d).
Proof.
  intros i1 i2 n1 n2 d Hne.
  rewrite !snd_updateTranslationJob.
  destruct (int4_ok (update_id i1) && update_storable i1) eqn:A1;
    destruct (int4_ok (update_id i2) && update_storable i2) eqn:A2;
    cbn [rows next_id heap].
  - split; [apply touches_commute; exact Hne|]. split; [reflexivity|].
    split.
    { eapply perm_trans; [apply Permutation_sym, move_to_end_perm|].
      eapply perm_trans; [apply Permutation_sym, move_to_end_perm|].
      eapply perm_trans; [apply move_to_end_perm|]. apply move_to_end_perm. }
    split.
    { intros k. destruct (int4_ok k) eqn:Hk.
      - rewrite !getTranslationJob_first_row by exact Hk. cbn [rows].
        rewrite (touches_commute i1 i2 n1 n2 _ Hne). reflexivity.
      - rewrite !getTranslationJob_out_of_range by exact Hk. reflexivity. }
    rewrite !fst_updateTranslationJob. cbn [rows].
    rewrite (filter_touched_other (update_id i1) _ (set_updateData_id i1 n1))
      by (intros E; apply Hne; symmetry; exact E).
    reflexivity.
  - repeat split; try reflexivity; try apply Permutation_refl.
    rewrite !fst_updateTranslationJob.
    destruct (int4_ok (update_id i2)); [|reflexivity].
    destruct (update_storable i2); [discriminate A2 | reflexivity].
  - repeat split; try reflexivity; apply Permutation_refl.
  - repeat split; try reflexivity; apply Permutation_refl.
Qed.

(** ** Listing and reading agree *)

(** Every job of a listing is what reading its id returns, and every job
    that can be read is in every listing. *)
Theorem listed_jobs_can_be_read :
  forall (d : Db) (jobs : list TranslationJob),
    db_wf d -> listing d jobs ->
    (forall j, In j jobs -> getTranslationJob {| get_id := id j |} d = Ok (Some j))
    /\ (forall k j, getTranslationJob {| get_id := k |} d = Ok (Some j) -> In j jobs)
    /\ NoDup (map id jobs).
Proof.
  intros d jobs (Hnd & _ & Hint & _) [Hp _]. split; [|split].
  - intros j Hj. apply (Permutation_in _ (Permutation_sym Hp)) in Hj.
    rewrite Forall_forall in Hint.
    rewrite getTranslationJob_first_row by exact (Hint j Hj).
    rewrite (filter_unique_id _ _ Hnd Hj). reflexivity.
  - intros k j Hget. apply getTranslationJob_found in Hget.
    apply (Permutation_in _ Hp). exact (proj1 Hget).
  - apply (Permutation_NoDup (Permutation_map id Hp)). exact Hnd.
Qed.

(** ** The update timestamp *)

Lemma supplies_old_values_empty : forall k j, supplies_old_values (empty_update k) j.
Proof. intros k j. repeat split; intros ? H; discriminate H. Qed.

Lemma set_updateData_old_values :
  forall input now j,
    supplies_old_values input j -> set_updateData input now j = with_updated_at j now.
Proof.
  intros [k dl st tf tr tt em] now j (Hdl & Hst & Htf & Htr & Htt & Hem).
  simpl in *.
  unfold set_updateData, apply_set, updateData, with_updated_at, supplied. simpl.
  f_equal.
  - destruct dl; simpl; [symmetry; auto | reflexivity].
  - destruct st; [symmetry; auto | reflexivity].
  - destruct tf; [symmetry; auto | reflexivity].
  - destruct tr; [symmetry; auto | reflexivity].
  - destruct tt; [symmetry; auto | reflexivity].
  - destruct em; [symmetry; auto | reflexivity].
Qed.

(** Every update of an existing job that PostgreSQL accepts sets
    [updated_at] to the reading of the handler's clock, whatever is
    supplied; when every supplied value equals the old one, and in
    particular when nothing is supplied, the job is otherwise unchanged;
    [updated_at] becomes strictly greater exactly when that reading is
    later than the old value. *)
Theorem update_resets_updated_at :
  forall (d : Db) (input : UpdateTranslationJobInput) (now : Z) (j : TranslationJob),
    db_wf d -> In j (rows d) -> id j = update_id input ->
    update_storable input = true ->
    exists j' : TranslationJob,
      fst (updateTranslationJob input now d) = Ok (Some j')
      /\ getTranslationJob {| get_id := id j |} (snd (updateTranslationJob input now d))
         = Ok (Some j')
      /\ updated_at j' = now
      /\ (supplies_old_values input j -> j' = with_updated_at j now)
      /\ (input = empty_update (id j) -> j' = with_updated_at j now)
      /\ (updated_at j < updated_at j' <-> updated_at j < now).
Proof.
  intros d input now j Hwf Hin Hid Hs.
  destruct (updateTranslationJob_present d input now j Hwf Hin Hid Hs)
    as (Hret & Hsto & Hk).
  exists (set_updateData input now j).
  split; [exact Hret|].
  split; [rewrite getTranslationJob_first_row, Hsto by exact Hk; reflexivity|].
  split; [reflexivity|].
  split; [apply set_updateData_old_values|].
  split.
  - intros ->. apply set_updateData_old_values, supplies_old_values_empty.
  - simpl. reflexivity.
Qed.

(** ** The update schema *)

Lemma translationStatusSchema_name :
  forall s, translationStatusSchema (JsString (status_name s)) = Ok s.
Proof. intros []; reflexivity. Qed.

Lemma translationStatusSchema_inv :
  forall v s, translationStatusSchema v = Ok s -> v = js_status s.
Proof.
  intros v s. unfold translationStatusSchema, z_enum, js_status.
  destruct v; try discriminate.
  destruct (find _ translationStatuses) as [o|] eqn:F; [|discriminate].
  intros [= ->]. apply find_some in F. destruct F as [_ F].
  apply String.eqb_eq in F. congruence.
Qed.

Lemma z_nullable_string_iff :
  forall v t, z_nullable z_string v = Ok t <-> v = js_nullable_string t.
Proof.
  intros v t. split.
  - destruct v; simpl; intros H; try discriminate H; injection H as <-; reflexivity.
  - intros ->. destruct t; reflexivity.
Qed.

Section OptionalField.
Context {A : Type}.
Variable p : Parser A.
Variable encode : A -> JsValue.
Hypothesis p_iff : forall v a, p v = Ok a <-> v = encode a.
Hypothesis encode_defined : forall a, encode a <> JsUndefined.

Lemma z_optional_iff :
  forall v u, z_optional p v = Ok u <-> optional_as encode v u.
Proof.
  intros v u. unfold z_optional, optional_as. split.
  - destruct v; try (intros [= <-]; reflexivity);
      (destruct (p _) as [a|e] eqn:E; [|discriminate]);
      intros [= <-]; apply p_iff; exact E.
  - destruct u as [a|].
    + intros ->. pose proof (encode_defined a) as Hdef.
      pose proof (proj2 (p_iff (encode a) a) eq_refl) as Hp.
      destruct (encode a); try (rewrite Hp; reflexivity). contradiction.
    + intros ->. reflexivity.
Qed.

End OptionalField.

Lemma optional_language_iff :
  forall v u, z_optional supportedLanguagesSchema v = Ok u <-> optional_as js_language v u.
Proof.
  apply z_optional_iff.
  - intros v l. split; [apply supportedLanguagesSchema_inv|].
    intros ->. apply supportedLanguagesSchema_code.
  - discriminate.
Qed.

Lemma optional_status_iff :
  forall v u, z_optional translationStatusSchema v = Ok u <-> optional_as js_status v u.
Proof.
  apply z_optional_iff.
  - intros v s. split; [apply translationStatusSchema_inv|].
    intros ->. apply translationStatusSchema_name.
  - discriminate.
Qed.

Lemma optional_text_iff :
  forall v u,
    z_optional (z_nullable z_string) v = Ok u <-> optional_as js_nullable_string v u.
Proof.
  apply z_optional_iff.
  - apply z_nullable_string_iff.
  - intros [s|]; discriminate.
Qed.

Lemma z_number_iff : forall v n, z_number v = Ok n <-> v = JsNumber n.
Proof.
  intros v n. split.
  - destruct v; simpl; intros H; try discriminate H. injection H as <-. reflexivity.
  - intros ->. reflexivity.
Qed.

(** What an accepted update object must have held. *)
Lemma updateTranslationJobInputSchema_inv :
  forall (o : list (string * JsValue)) (input : UpdateTranslationJobInput),
    updateTranslationJobInputSchema (JsObject o) = Ok input ->
    get_prop "id" o = JsNumber (update_id input)
    /\ optional_as js_language (get_prop "detected_language" o)
         (update_detected_language input)
    /\ optional_as js_status (get_prop "status" o) (update_status input)
    /\ optional_as js_nullable_string (get_prop "translated_file_path" o)
         (update_translated_file_path input)
    /\ optional_as js_nullable_string (get_prop "transcript" o)
         (update_transcript input)
    /\ optional_as js_nullable_string (get_prop "translated_transcript" o)
         (update_translated_transcript input)
    /\ optional_as js_nullable_string (get_prop "error_message" o)
         (update_error_message input).
Proof.
  intros o input. unfold updateTranslationJobInputSchema, field.
  destruct (z_number (get_prop "id" o)) as [k|] eqn:Ek;
    destruct (z_optional supportedLanguagesSchema (get_prop "detected_language" o))
      as [dl|] eqn:Edl;
    destruct (z_optional translationStatusSchema (get_prop "status" o))
      as [st|] eqn:Est;
    destruct (z_optional (z_nullable z_string) (get_prop "translated_file_path" o))
      as [tf|] eqn:Etf;
    destruct (z_optional (z_nullable z_string) (get_prop "transcript" o))
      as [tr|] eqn:Etr;
    destruct (z_optional (z_nullable z_string) (get_prop "translated_transcript" o))
      as [tt|] eqn:Ett;
    destruct (z_optional (z_nullable z_string) (get_prop "error_message" o))
      as [em|] eqn:Eem;
    simpl; try discriminate.
  intros [= <-]. simpl.
  apply z_number_iff in Ek. apply optional_language_iff in Edl.
  apply optional_status_iff in Est.
  apply optional_text_iff in Etf. apply optional_text_iff in Etr.
  apply optional_text_iff in Ett. apply optional_text_iff in Eem.
  repeat split; assumption.
Qed.

(** The update schema accepts an object exactly when its [id] is a
    number, [detected_language] is left out or one of the twelve codes,
    [status] is left out or one of the four status names, and each of the
    four text fields is left out, null or a text; the parsed input then
    holds exactly what was given. *)
Theorem update_schema_accepts_exactly :
  forall (o : list (string * JsValue)) (input : UpdateTranslationJobInput),
    updateTranslationJobInputSchema (JsObject o) = Ok input
    <-> (get_prop "id" o = JsNumber (update_id input)
         /\ optional_as js_language (get_prop "detected_language" o)
              (update_detected_language input)
         /\ optional_as js_status (get_prop "status" o) (update_status input)
         /\ optional_as js_nullable_string (get_prop "translated_file_path" o)
              (update_translated_file_path input)
         /\ optional_as js_nullable_string (get_prop "transcript" o)
              (update_transcript input)
         /\ optional_as js_nullable_string (get_prop "translated_transcript" o)
              (update_translated_transcript input)
         /\ optional_as js_nullable_string (get_prop "error_message" o)
              (update_error_message input)).
Proof.
  intros o input. split; [apply updateTranslationJobInputSchema_inv|].
  intros (Hid & Hdl & Hst & Htf & Htr & Htt & Hem).
  apply z_number_iff in Hid. apply optional_language_iff in Hdl.
  apply optional_status_iff in Hst.
  apply optional_text_iff in Htf. apply optional_text_iff in Htr.
  apply optional_text_iff in Htt. apply optional_text_iff in Hem.
  unfold updateTranslationJobInputSchema, field.
  rewrite Hid, Hdl, Hst, Htf, Htr, Htt, Hem. simpl.
  destruct input. reflexivity.
Qed.

(** An update is refused, and nothing is written, when its [id] is not a
    number, when [status] is given but is not one of the four status
    names, when [detected_language] is given but is not one of the twelve
    codes, or when one of the text fields is given as something other
    than null or a text. *)
Theorem update_rejects_invalid_input :
  forall (w : World) (now : Z) (o : list (string * JsValue)),
    (forall n, get_prop "id" o <> JsNumber n)
    \/ (get_prop "status" o <> JsUndefined
        /\ forall s, get_prop "status" o <> js_status s)
    \/ (get_prop "detected_language" o <> JsUndefined
        /\ forall l, get_prop "detected_language" o <> js_language l)
    \/ (exists key, In key text_keys
                    /\ get_prop key o <> JsUndefined
                    /\ forall t, get_prop key o <> js_nullable_string t) ->
    exists issues,
      proc_updateTranslationJob (JsObject o) now w = (Err (BAD_REQUEST issues), w).
Proof.
  intros w now o Hbad. unfold proc_updateTranslationJob.
  destruct (updateTranslationJobInputSchema (JsObject o)) as [input|issues] eqn:E.
  - exfalso. apply updateTranslationJobInputSchema_inv in E.
    destruct E as (Hid & Hdl & Hst & Htf & Htr & Htt & Hem).
    assert (Hopt : forall (A : Type) (enc : A -> JsValue) v u,
               optional_as enc v u -> v <> JsUndefined ->
               (forall a, v <> enc a) -> False).
    { intros A enc v [a|] H Hdef Hno; simpl in H; [exact (Hno a H) | exact (Hdef H)]. }
    destruct Hbad as [H|[[Hd H]|[[Hd H]|(key & Hkey & Hd & H)]]].
    + exact (H _ Hid).
    + exact (Hopt _ _ _ _ Hst Hd H).
    + exact (Hopt _ _ _ _ Hdl Hd H).
    + simpl in Hkey.
      destruct Hkey as [<-|[<-|[<-|[<-|[]]]]];
        [ exact (Hopt _ _ _ _ Htf Hd H) | exact (Hopt _ _ _ _ Htr Hd H)
        | exact (Hopt _ _ _ _ Htt Hd H) | exact (Hopt _ _ _ _ Hem Hd H) ].
  - exists issues. reflexivity.
Qed.

(** * The client *)

(** ** Language names on the page *)

(** For each of the twelve codes the page shows the name that the
    server's catalogue gives to that code; for a text that is neither a
    code nor a name inherited by every object it shows the text itself.
    So the languages of a job are always shown by their catalogue names. *)
Theorem getLanguageName_agrees_with_catalogue :
  forall l : SupportedLanguage,
    (exists n, In {| code := l; name := n |} getSupportedLanguages
               /\ getLanguageName (language_code l) = display_text n)
    /\ (forall c, (forall l', c <> language_code l') ->
                  ~ In c Object_prototype_keys ->
                  getLanguageName c = display_text c).
Proof.
  intros l. split.
  - rewrite getSupportedLanguages_value.
    destruct l; eexists; (split; [simpl; tauto | reflexivity]).
  - intros c Hc Hp. unfold getLanguageName.
    destruct (find (fun e => String.eqb c (fst e)) clientLanguageNames)
      as [e|] eqn:F.
    + exfalso. apply find_some in F. destruct F as [Hin E].
      apply String.eqb_eq in E. simpl in Hin.
      repeat (destruct Hin as [<-|Hin];
              [ first [ exact (Hc en E) | exact (Hc es E) | exact (Hc fr E)
                      | exact (Hc de E) | exact (Hc it E) | exact (Hc pt E)
                      | exact (Hc ru E) | exact (Hc ja E) | exact (Hc ko E)
                      | exact (Hc zh E) | exact (Hc ar E) | exact (Hc hi E) ] |]).
      exact Hin.
    + destruct (existsb (String.eqb c) Object_prototype_keys) eqn:X; [|reflexivity].
      exfalso. apply existsb_exists in X. destruct X as (k & Hk & E).
      apply String.eqb_eq in E. subst k. exact (Hp Hk).
Qed.

(** ** The upload form *)

Lemma handleFileSelect_ok :
  forall file st,
    form_ok st ->
    form_ok (fst (handleFileSelect file st))
    /\ snd (handleFileSelect file st) = [] \/
    form_ok (fst (handleFileSelect file st))
    /\ exists message, snd (handleFileSelect file st) = [alert message].
Proof.
  intros file st Hst. unfold handleFileSelect.
  destruct (prefix "video/" (file_type file)) eqn:P; cbn [negb].
  - destruct (100 * 1024 * 1024 <? file_size file) eqn:B; cbn [fst snd].
    + right. split; [exact Hst | eexists; reflexivity].
    + left. split; [|reflexivity].
      apply Z.ltb_ge in B.
      intros f [= <-]. split; [exact P | lia].
  - right. split; [exact Hst | eexists; reflexivity].
Qed.

Lemma handle_ok :
  forall e st,
    form_ok st ->
    form_ok (fst (handle e st))
    /\ forall file language,
         In (onUpload file language) (snd (handle e st)) -> acceptable file.
Proof.
  intros e st Hst.
  assert (Hsel : forall file st0,
             form_ok st0 ->
             form_ok (fst (handleFileSelect file st0))
             /\ forall f language,
                  In (onUpload f language) (snd (handleFileSelect file st0)) ->
                  acceptable f).
  { intros file st0 H0.
    destruct (handleFileSelect_ok file st0 H0) as [[H1 H2]|[H1 [m H2]]];
      rewrite H2; (split; [exact H1|]); simpl.
    - intros f language [].
    - intros f language [H|[]]. discriminate H. }
  destruct e as [ | | files | files | | value | ]; simpl.
  - split; [exact Hst | intros ? ? []].
  - split; [exact Hst | intros ? ? []].
  - unfold handleDrop. destruct files as [|file files].
    + split; [exact Hst | intros ? ? []].
    + apply Hsel. exact Hst.
  - unfold handleFileInputChange. destruct files as [|file files].
    + split; [exact Hst | intros ? ? []].
    + apply Hsel. exact Hst.
  - split; [intros f H; discriminate H | intros ? ? []].
  - split; [exact Hst | intros ? ? []].
  - unfold handleSubmit.
    destruct (selectedFile st) as [file|] eqn:S.
    + destruct (targetLanguage st) as [language|]; simpl.
      * split; [intros f H; discriminate H|].
        intros f l [H|[]]. injection H as <- _. apply Hst. exact S.
      * split; [exact Hst|]. intros f l [H|[]]. discriminate H.
    + simpl. split; [exact Hst|]. intros f l [H|[]]. discriminate H.
Qed.

Lemma handle_all_ok :
  forall events st,
    form_ok st ->
    form_ok (fst (handle_all events st))
    /\ forall file language,
         In (onUpload file language) (snd (handle_all events st)) -> acceptable file.
Proof.
  induction events as [|e events IH]; intros st Hst; simpl.
  - split; [exact Hst | intros ? ? []].
  - destruct (handle_ok e st Hst) as [H1 H2].
    destruct (handle e st) as [st' effects]. simpl in H1, H2.
    destruct (IH st' H1) as [H3 H4].
    destruct (handle_all events st') as [st'' effects']. simpl in *.
    split; [exact H3|].
    intros file language Hin. apply in_app_or in Hin.
    destruct Hin as [Hin|Hin]; [eapply H2 | eapply H4]; exact Hin.
Qed.

(** Whatever the user does at the form, an upload is only ever started
    for a file whose type begins with "video/" and whose size is at most
    100 MB: other files only raise an alert and never become the selected
    file. *)
Theorem form_uploads_only_acceptable_files :
  forall (events : list FormEvent) (file : File) (language : SupportedLanguage),
    In (onUpload file language) (snd (handle_all events initial_form)) ->
    prefix "video/" (file_type file) = true /\ file_size file <= 104857600.
Proof.
  intros events file language Hin.
  destruct (handle_all_ok events initial_form) as [_ H].
  - intros f Hf. discriminate Hf.
  - exact (H file language Hin).
Qed.

(** ** Sending the file *)

Lemma split_on_whole :
  forall sep s, contains_char sep s = false -> split_on sep s = [s].
Proof.
  intros sep. induction s as [|c s IH]; intros H; simpl in *; [reflexivity|].
  apply orb_false_iff in H. destruct H as [Hc Hs].
  rewrite Hc, (IH Hs). reflexivity.
Qed.

Lemma split_on_first :
  forall sep p q,
    contains_char sep p = false ->
    split_on sep (p ++ String sep q)%string = p :: split_on sep q.
Proof.
  intros sep. induction p as [|c p IH]; intros q H; simpl in *.
  - rewrite Ascii.eqb_refl. reflexivity.
  - apply orb_false_iff in H. destruct H as [Hc Hp].
    rewrite Hc, (IH q Hp). reflexivity.
Qed.

Lemma dataUrl_payload_of_url :
  forall header payload,
    contains_char "," header = false -> contains_char "," payload = false ->
    dataUrl_payload (header ++ String "," payload)%string = JsString payload.
Proof.
  intros header payload Hh Hp. unfold dataUrl_payload.
  rewrite (split_on_first _ _ _ Hh), (split_on_whole _ _ Hp). reflexivity.
Qed.

Lemma dataUrl_payload_no_comma :
  forall result, contains_char "," result = false -> dataUrl_payload result = JsUndefined.
Proof.
  intros result H. unfold dataUrl_payload. rewrite (split_on_whole _ _ H). reflexivity.
Qed.

(** When the file reader delivers a data URL (a header without comma, a
    comma, the base64 payload) for a file with a non-empty name, the
    request is never refused by the schema, and the page shows what the
    server answered. If the answer is a job, the job is at the head of
    the page's list, there is no error message and the upload flag is
    down; the job is pending, carries the file's name and the chosen
    language, is the row appended to the table and can be read back under
    its id. If the server failed (the file system or PostgreSQL refused),
    the page shows the error message and keeps its list, and the table
    has no new row. *)
Theorem handleVideoUpload_outcome :
  forall (file : File) (language : SupportedLanguage) (header payload : string)
         (timestamp : Z) (random36 : string) (now : Z) (app : AppState) (w : World),
    db_wf (db w) ->
    file_name file <> "" ->
    contains_char "," header = false ->
    contains_char "," payload = false ->
    (exists j : TranslationJob,
        fst (handleVideoUpload file language (Some (header ++ String "," payload)%string)
               timestamp random36 now app w)
        = {| jobs := Some j :: jobs app; isUploading := false; uploadError := None |}
        /\ original_filename j = file_name file
        /\ target_language j = language
        /\ status j = pending
        /\ rows (db (snd (handleVideoUpload file language
                            (Some (header ++ String "," payload)%string)
                            timestamp random36 now app w)))
           = (rows (db w) ++ [j])%list
        /\ getTranslationJob {| get_id := id j |}
             (db (snd (handleVideoUpload file language
                         (Some (header ++ String "," payload)%string)
                         timestamp random36 now app w)))
           = Ok (Some j))
    \/ (exists cause : Thrown,
          fst (proc_uploadVideo
                 (upload_request file language (header ++ String "," payload)%string)
                 timestamp random36 now w)
          = Err (INTERNAL_SERVER_ERROR cause)
          /\ fst (handleVideoUpload file language
                    (Some (header ++ String "," payload)%string)
                    timestamp random36 now app w)
             = {| jobs := jobs app; isUploading := false;
                  uploadError := Some "Failed to upload video. Please try again." |}
          /\ db (snd (handleVideoUpload file language
                        (Some (header ++ String "," payload)%string)
                        timestamp random36 now app w))
             = db w).
Proof.
  intros file language header payload timestamp random36 now app w Hwf Hname Hh Hp.
  unfold handleVideoUpload.
  remember (upload_request file language (header ++ String "," payload)%string)
    as raw eqn:Eraw.
  assert (Hin : uploadVideoInputSchema raw
                = Ok {| upload_filename := file_name file; upload_file_data := payload;
                        upload_target_language := language |}).
  { rewrite Eraw. unfold upload_request. rewrite (dataUrl_payload_of_url _ _ Hh Hp).
    apply uploadVideoInputSchema_accepts; (reflexivity || exact Hname). }
  unfold proc_uploadVideo. rewrite Hin.
  remember {| upload_filename := file_name file; upload_file_data := payload;
              upload_target_language := language |} as input eqn:Einput.
  destruct (uploadVideo_cases input timestamp random36 now w _ eq_refl)
    as [(e & Hret & Hdb) | (st & st' & _ & _ & Hins & E)].
  - right. destruct (uploadVideo input timestamp random36 now w) as [job w'].
    cbn [fst snd] in *. subst job. exists e. cbn [respond fst snd].
    split; [reflexivity|]. split; [reflexivity | exact Hdb].
  - left. rewrite E. cbn [respond fst snd db].
    destruct (db_insert_then_get _ now (db w) _ Hwf Hins) as (Hget & Hrows & _).
    eexists. split; [reflexivity|].
    rewrite Einput.
    cbn [id original_filename target_language status inserted_row upload_values
         new_original_filename new_target_language new_status upload_filename
         upload_target_language] in *.
    split; [reflexivity|]. split; [reflexivity|]. split; [reflexivity|].
    rewrite Einput in Hrows, Hget. split; [exact Hrows | exact Hget].
Qed.

(** When the file cannot be read, when what the reader delivers has no
    comma, or when the file has an empty name, the page shows the error
    message and keeps its list, and the server is left untouched: no row
    and no file. *)
Theorem handleVideoUpload_failure :
  forall (file : File) (language : SupportedLanguage) (readerResult : option string)
         (timestamp : Z) (random36 : string) (now : Z) (app : AppState) (w : World),
    readerResult = None
    \/ (exists result, readerResult = Some result
                       /\ contains_char "," result = false)
    \/ file_name file = "" ->
    handleVideoUpload file language readerResult timestamp random36 now app w
    = ({| jobs := jobs app; isUploading := false;
          uploadError := Some "Failed to upload video. Please try again." |}, w).
Proof.
  intros file language readerResult timestamp random36 now app w Hbad.
  unfold handleVideoUpload, upload_request.
  destruct readerResult as [result|]; [|reflexivity].
  match goal with |- context [proc_uploadVideo (JsObject ?o) _ _ _ _] =>
    destruct (upload_rejects_invalid (JsObject o) timestamp random36 now w) as [issues E]
  end.
  - intros o' Ho. injection Ho as <-.
    destruct Hbad as [H|[(r & Hr & Hc)|H]].
    + discriminate H.
    + injection Hr as <-. right; right; left. simpl.
      rewrite (dataUrl_payload_no_comma _ Hc). intros s H. discriminate H.
    + left. simpl. rewrite H. reflexivity.
  - rewrite E. reflexivity.
Qed.


(** ** Insertion order and creation time *)

Lemma StronglySorted_snoc :
  forall (A : Type) (R : A -> A -> Prop) (l : list A) (x : A),
    StronglySorted R l -> Forall (fun a => R a x) l -> StronglySorted R (l ++ [x]).
Proof.
  intros A R l x Hs Hall. induction Hs as [|a l Hs IH Ha]; simpl.
  - constructor; constructor.
  - inversion Hall as [|? ? Hax Hall']; subst.
    constructor; [apply IH; exact Hall'|].
    apply Forall_app. split; [exact Ha | constructor; [exact Hax | constructor]].
Qed.

Lemma StronglySorted_rev :
  forall (A : Type) (R : A -> A -> Prop) (l : list A),
    StronglySorted R l -> StronglySorted (fun a b => R b a) (rev l).
Proof.
  intros A R l Hs. induction Hs as [|a l Hs IH Ha]; simpl; [constructor|].
  apply StronglySorted_snoc; [exact IH|].
  apply Forall_rev. exact Ha.
Qed.

Lemma StronglySorted_map_key :
  forall (A : Type) (key : A -> Z) (g : A -> A) (l : list A),
    (forall a, key (g a) = key a) ->
    StronglySorted (fun a b => key a <= key b) l ->
    StronglySorted (fun a b => key a <= key b) (map g l).
Proof.
  intros A key g l Hg Hs. induction Hs as [|a l Hs IH Ha]; simpl; constructor.
  - exact IH.
  - apply Forall_map. eapply Forall_impl; [|exact Ha].
    intros b Hab. simpl. rewrite !Hg. exact Hab.
Qed.

Lemma chronological_exec :
  forall t c w,
    t <= call_time c -> chronological t (db w) ->
    chronological (call_time c) (db (exec c w)).
Proof.
  intros t c w Hle [Hs Hall].
  assert (Hall' : Forall (fun r => created_at r <= call_time c) (rows (db w))).
  { eapply Forall_impl; [|exact Hall]. simpl. intros; lia. }
  destruct (exec_cases c w) as [-> | [(v & ->) | (input & ->)]].
  - split; assumption.
  - destruct (db_insert_cases v (call_time c) (db w)) as [[e ->] | (_ & _ & ->)];
      [split; assumption|].
    unfold chronological. cbn [snd rows]. split.
    + apply StronglySorted_snoc; [exact Hs | exact Hall'].
    + apply Forall_app. split; [exact Hall' | constructor; [simpl; lia | constructor]].
  - destruct (updateTranslationJob_cases input (call_time c) (db w))
      as [[e ->] | (_ & _ & ->)]; [split; assumption|].
    unfold chronological. cbn [snd rows]. split.
    + apply StronglySorted_map_key; [|exact Hs].
      intros r. destruct (id r =? update_id input); reflexivity.
    + apply Forall_map. eapply Forall_impl; [|exact Hall'].
      simpl. intros r Hr. destruct (id r =? update_id input); exact Hr.
Qed.

Lemma chronological_run :
  forall calls t w,
    chronological t (db w) ->
    Forall (Z.le t) (map call_time calls) ->
    StronglySorted Z.le (map call_time calls) ->
    exists t', chronological t' (db (run calls w)).
Proof.
  induction calls as [|c calls IH]; intros t w H Hlow Hsorted.
  - exists t. exact H.
  - rewrite run_cons. simpl in Hlow, Hsorted.
    inversion Hlow as [|? ? Hc _]; subst.
    inversion Hsorted as [|? ? Hs Hall]; subst.
    apply (IH (call_time c)).
    + apply (chronological_exec t); assumption.
    + exact Hall.
    + exact Hs.
Qed.

(** Along every history of calls whose clock readings do not go
    backwards, starting from the empty table, the rows stand in the
    table in the order of their creation times, so the table read
    backwards (latest insertion first) holds all rows newest first, the
    order the listing asks for. *)
Theorem reverse_insertion_order_is_a_listing :
  forall calls : list Call,
    StronglySorted Z.le (map call_time calls) ->
    StronglySorted (fun a b => created_at a <= created_at b)
      (rows (db (run calls initial_world)))
    /\ listing (db (run calls initial_world))
         (rev (rows (db (run calls initial_world)))).
Proof.
  intros calls Hsorted.
  assert (H : exists t', chronological t' (db (run calls initial_world))).
  { destruct calls as [|c calls].
    - exists 0. split; constructor.
    - apply (chronological_run (c :: calls) (call_time c)).
      + split; constructor.
      + simpl in *. inversion Hsorted; subst. constructor; [lia | assumption].
      + exact Hsorted. }
  destruct H as [t' [Hs _]]. split; [exact Hs|].
  split; [apply Permutation_rev|].
  apply StronglySorted_rev in Hs. exact Hs.
Qed.

(** ** Upload and creation write the same row *)

(** The upload handler leaves the five nullable columns out of its
    insert where the creation handler writes explicit nulls, so the two
    handlers pass different values; PostgreSQL stores a column that is
    left out as NULL, so the two inserts do the same. When the directory
    can be made and the file written, an upload therefore answers, and
    leaves in the table, exactly what a creation with the generated path
    would. *)
Theorem upload_inserts_like_create :
  forall (input : UploadVideoInput) (timestamp : Z) (random36 : string) (now : Z)
         (w : World),
    let path := filePath timestamp random36 (upload_filename input) in
    let creation :=
      {| create_original_filename := upload_filename input;
         create_original_file_path := path;
         create_target_language := upload_target_language input |} in
    upload_values input path <> create_values creation
    /\ db_insert (upload_values input path) now (db w)
       = db_insert (create_values creation) now (db w)
    /\ (forall st st' : FsState,
          mkdir_recursive (dirname (fullPath path)) (storage w) = (None, st) ->
          writeFile (fullPath path) (Buffer_from_base64 (upload_file_data input)) st
          = (None, st') ->
          uploadVideo input timestamp random36 now w
          = (fst (createTranslationJob creation now (db w)),
             {| db := snd (createTranslationJob creation now (db w));
                storage := st' |})).
Proof.
  intros input timestamp random36 now w path creation.
  assert (Hsame : db_insert (upload_values input path) now (db w)
                  = db_insert (create_values creation) now (db w)).
  { unfold db_insert, inserted_row, insert_texts, upload_values, create_values, creation.
    cbn [new_original_filename new_original_file_path new_detected_language
         new_target_language new_status new_translated_file_path new_transcript
         new_translated_transcript new_error_message create_original_filename
         create_original_file_path create_target_language text_of or_null app].
    reflexivity. }
  split; [intros H; discriminate H|]. split; [exact Hsame|].
  intros st st' Hmk Hwr. unfold uploadVideo, createTranslationJob.
  fold path. cbv zeta. rewrite Hmk, Hwr, Hsame.
  destruct (db_insert (create_values creation) now (db w)) as [result d'].
  reflexivity.
Qed.

End Further.

(** * The further properties at concrete inputs *)

Lemma create_then_get_witness :
  exists j : TranslationJob,
    id j = 2
    /\ proc_getTranslationJob (JsObject [("id", JsNumber 2)])
         (snd (proc_createTranslationJob (JsObject valid_create_props) 3000
                 detected_world))
       = (Ok (Some j),
          snd (proc_createTranslationJob (JsObject valid_create_props) 3000
                 detected_world)).
Proof.
  eexists. split; [|
    exact (proj1 (create_then_get detected_world 3000 (JsObject valid_create_props) _
                    detected_world_wf eq_refl)) ].
  reflexivity.
Defined.

Lemma jobs_keep_their_identity_witness :
  exists j' : TranslationJob,
    getTranslationJob {| get_id := 1 |} (db (run later_calls detected_world))
    = Ok (Some j')
    /\ original_filename j' = "clip.mp4" /\ created_at j' = 1000.
Proof.
  destruct (jobs_keep_their_identity later_calls detected_world 1 detected_job eq_refl)
    as (j' & Hget & _ & Hfn & _ & _ & Hat).
  exists j'. split; [exact Hget|]. split; [exact Hfn | exact Hat].
Defined.

Lemma updates_of_different_jobs_commute_witness :
  rows (snd (updateTranslationJob second_update 3000
               (snd (updateTranslationJob sample_update 2000 two_job_db))))
  = rows (snd (updateTranslationJob sample_update 2000
                 (snd (updateTranslationJob second_update 3000 two_job_db)))).
Proof.
  apply (updates_of_different_jobs_commute sample_update second_update 2000 3000
           two_job_db).
  simpl. lia.
Defined.

(** The order of two updates of different jobs shows in the order of a
    scan: the job updated last comes last. *)
Example update_order_shows_in_scan :
  heap (snd (updateTranslationJob second_update 3000
               (snd (updateTranslationJob sample_update 2000 two_job_db))))
  = [1; 2]
  /\ heap (snd (updateTranslationJob sample_update 2000
                  (snd (updateTranslationJob second_update 3000 two_job_db))))
     = [2; 1].
Proof. split; reflexivity. Qed.

Lemma listed_jobs_can_be_read_witness :
  forallb (fun j => match getTranslationJob {| get_id := id j |} two_job_db with
                    | Ok (Some j') => id j' =? id j
                    | _ => false
                    end)
    (order_desc_flip_ties (rows two_job_db)) = true
  /\ NoDup (map id (order_desc_flip_ties (rows two_job_db))).
Proof.
  destruct (listed_jobs_can_be_read two_job_db (order_desc_flip_ties (rows two_job_db))
              two_job_db_wf)
    as (_ & _ & Hnd).
  - split.
    + apply perm_swap.
    + repeat constructor; unfold newest_first; simpl; lia.
  - split; [reflexivity | exact Hnd].
Defined.

Lemma upload_stores_file_and_job_witness :
  exists j : TranslationJob,
    fst (proc_uploadVideo (JsObject valid_upload_props) 1700000000000 "0.k3j9x2abcde"
           1700000000002 initial_world) = Ok (Some j)
    /\ status j = pending
    /\ original_file_path j = "/uploads/videos/1700000000000_k3j9x2_clip.mp4"
    /\ getTranslationJob {| get_id := id j |}
         (db (snd (proc_uploadVideo (JsObject valid_upload_props) 1700000000000
                     "0.k3j9x2abcde" 1700000000002 initial_world)))
       = Ok (Some j).
Proof.
  eexists. split; [reflexivity|].
  destruct (proj1 (upload_stores_file_and_job initial_world 1700000000000
                     "0.k3j9x2abcde" 1700000000002 (JsObject valid_upload_props)
                     initial_world_wf) _ eq_refl)
    as (input & st & _ & _ & _ & _ & Hget & _ & _ & _ & Hst & _).
  split; [exact Hst|]. split; [reflexivity | exact Hget].
Defined.

Lemma upload_rejects_invalid_input_witness :
  exists issues,
    proc_uploadVideo
      (JsObject [ ("filename", JsString ""); ("file_data", JsString "AAAA");
                  ("target_language", JsString "ja") ])
      1700000000000 "0.k3j9x2abcde" 1700000000002 detected_world
    = (Err (BAD_REQUEST issues), detected_world).
Proof.
  apply upload_rejects_invalid_input. left. reflexivity.
Defined.

Lemma update_rejects_invalid_input_witness :
  exists issues,
    proc_updateTranslationJob (JsObject unknown_status_props) 2000 detected_world
    = (Err (BAD_REQUEST issues), detected_world).
Proof.
  apply update_rejects_invalid_input. right; left. split.
  - simpl. discriminate.
  - intros []; simpl; discriminate.
Defined.

Lemma form_uploads_only_acceptable_files_witness :
  prefix "video/" (file_type video_file) = true /\ file_size video_file <= 104857600.
Proof.
  apply (form_uploads_only_acceptable_files form_session video_file ja).
  simpl. tauto.
Defined.

Lemma handleVideoUpload_outcome_witness :
  exists j : TranslationJob,
    fst (handleVideoUpload video_file ja (Some "data:video/mp4;base64,AAAA")
           1700000000000 "0.k3j9x2abcde" 1700000000002 initial_app initial_world)
    = {| jobs := [Some j]; isUploading := false; uploadError := None |}
    /\ original_filename j = "clip.mp4".
Proof.
  destruct (handleVideoUpload_outcome video_file ja "data:video/mp4;base64" "AAAA"
              1700000000000 "0.k3j9x2abcde" 1700000000002 initial_app initial_world
              initial_world_wf ltac:(discriminate) eq_refl eq_refl)
    as [(j & Happ & Hfn & _) | (cause & Herr & _)].
  - exists j. split; [exact Happ | exact Hfn].
  - vm_compute in Herr. discriminate Herr.
Defined.

Lemma handleVideoUpload_failure_witness :
  handleVideoUpload video_file ja None 1700000000000 "0.k3j9x2abcde" 1700000000002
    initial_app detected_world
  = ({| jobs := []; isUploading := false;
        uploadError := Some "Failed to upload video. Please try again." |},
     detected_world).
Proof.
  apply handleVideoUpload_failure. left. reflexivity.
Defined.


Lemma reverse_insertion_order_is_a_listing_witness :
  listing (db (run (detecting_calls ++ later_calls) initial_world))
    (rev (rows (db (run (detecting_calls ++ later_calls) initial_world)))).
Proof.
  apply reverse_insertion_order_is_a_listing.
  simpl. repeat constructor; lia.
Defined.

Lemma update_resets_updated_at_witness :
  exists j' : TranslationJob,
    fst (updateTranslationJob (empty_update 1) 2000 one_job_db) = Ok (Some j')
    /\ j' = with_updated_at one_job 2000
    /\ updated_at one_job < updated_at j'.
Proof.
  destruct (update_resets_updated_at one_job_db (empty_update 1) 2000 one_job
              one_job_db_wf (or_introl eq_refl) eq_refl eq_refl)
    as (j' & Hret & _ & _ & _ & Hempty & Hlt).
  exists j'. split; [exact Hret|]. split; [exact (Hempty eq_refl)|].
  apply Hlt. simpl. lia.
Defined.

Lemma monotone_stamps_keep_order_witness :
  Forall (fun r => created_at r <= updated_at r)
    (rows (db (run session_calls initial_world))).
Proof.
  apply monotone_stamps_keep_order.
  simpl. repeat constructor; lia.
Defined.

(** The form session: a text file is refused, submitting without a file
    or without a language only alerts, and the one upload is that of the
    video file. *)
Example form_session_outcome :
  snd (handle_all form_session initial_form)
  = [ alert "Please select a video file"; alert "Please select a video file";
      alert "Please select a target language"; onUpload video_file ja;
      alert "Please select a video file" ]
  /\ fst (handle_all form_session initial_form) = initial_form.
Proof. split; reflexivity. Qed.

Example getLanguageName_examples :
  getLanguageName "zh" = display_text "Chinese"
  /\ getLanguageName "xx" = display_text "xx"
  /\ getLanguageName "toString" = display_inherited "toString".
Proof. repeat split. Qed.

(** An upload during which writing the file fails: the handler throws,
    the router answers INTERNAL_SERVER_ERROR, the page shows the error
    and keeps its list, and the table has no new row. The runtime is one
    whose file system refuses every write. *)
Example upload_with_failing_write :
  let failing : Runtime :=
    {| FsState := unit; Buffer := string; fs_initial := tt;
       Buffer_from_base64 := fun text => text;
       dirname := fun path => path;
       mkdir_recursive := fun _ st => (None, st);
       writeFile := fun _ _ st => (Some "ENAMETOOLONG", st) |} in
  @proc_uploadVideo failing (JsObject valid_upload_props) 1700000000000
    "0.k3j9x2abcde" 1700000000002 (@initial_world failing)
  = (Err (INTERNAL_SERVER_ERROR (FsThrown "ENAMETOOLONG")), @initial_world failing)
  /\ fst (@handleVideoUpload failing video_file ja (Some "data:video/mp4;base64,AAAA")
            1700000000000 "0.k3j9x2abcde" 1700000000002 initial_app
            (@initial_world failing))
     = {| jobs := []; isUploading := false;
          uploadError := Some "Failed to upload video. Please try again." |}.
Proof. split; reflexivity. Qed.

